(** * Prusa-Firmware: the wrap-around timer and the second serial line

    A shallow embedding of [Firmware/Timer.cpp] and [Firmware/uart2.cpp]
    together with the properties their specification states about them.

    Target conventions (AVR, avr-gcc): [int] and [unsigned short] are 16 bits
    wide, [unsigned long] is 32 bits wide.  An [unsigned short] operand does
    not fit into [int], so the usual arithmetic conversions take it to
    [unsigned int]: sums and differences of two [unsigned short] values wrap
    at 2^16, those of [unsigned long] values at 2^32. *)

From Stdlib Require Import ZArith Bool Lia.
From Stdlib Require Import Strings.Byte.
From stdpp Require Import base list strings.

(** ** Timer.cpp *)

Module Timer.
Local Open Scope Z_scope.

(** The two explicit instantiations at the end of Timer.cpp:
    [template class Timer<unsigned long>; template class Timer<unsigned short>;] *)
Inductive width : Type :=
| UnsignedShort
| UnsignedLong.

Definition bits (T : width) : Z :=
  match T with
  | UnsignedShort => 16
  | UnsignedLong => 32
  end.

Definition modulus (T : width) : Z := 2 ^ bits T.

(** Conversion of an integer value to the unsigned type [T]. *)
Definition wrap (T : width) (x : Z) : Z := x mod modulus T.

(** The values of type [T]. *)
Definition in_range (T : width) (x : Z) : Prop := 0 <= x < modulus T.

(** [_millis()] returns an [unsigned long]; its arithmetic wraps here. *)
Definition wrap_ulong (x : Z) : Z := x mod 2 ^ 32.

(** The data members the member functions of Timer.cpp read and write. *)
Record Timer : Type := mkTimer {
  m_started : Z;
  m_isRunning : bool
}.

(** Every member function below takes as [millis] the value that its call of
    [_millis()] returns, and gives back the object after the call. *)

(** [Timer<T>::start] *)
Definition start (T : width) (millis : Z) (t : Timer) : Timer :=
  {| m_started := wrap T millis; m_isRunning := true |}.

(** [Timer<T>::expired] *)
Definition expired (T : width) (millis : Z) (t : Timer) (msPeriod : Z)
  : bool * Timer :=
  if negb (m_isRunning t) then (false, t)
  else
    let now := wrap T millis in
    let expired :=
      if m_started t <=? wrap T (m_started t + msPeriod)
      then (wrap T (m_started t + msPeriod) <=? now) || (now <? m_started t)
      else (wrap T (m_started t + msPeriod) <=? now) && (now <? m_started t) in
    if expired
    then (true, {| m_started := m_started t; m_isRunning := false |})
    else (false, t).

(** [Timer<T>::elapsed]: the difference is taken in [unsigned long] (the type
    of [_millis()]) and converted to [T] by the return. *)
Definition elapsed (T : width) (millis : Z) (t : Timer) : Z * Timer :=
  (if m_isRunning t then wrap T (wrap_ulong (millis - m_started t)) else 0, t).

(** [Timer<T>::expired_cont]: [||] evaluates [expired] only for a running
    timer. *)
Definition expired_cont (T : width) (millis : Z) (t : Timer) (msPeriod : Z)
  : bool * Timer :=
  if negb (m_isRunning t) then (true, t)
  else expired T millis t msPeriod.

(** A sequence of [expired] calls on one object with no [start] in between;
    each call comes with the counter value it reads and its period. *)
Fixpoint expired_calls (T : width) (calls : list (Z * Z)) (t : Timer)
  : list bool * Timer :=
  match calls with
  | [] => ([], t)
  | (millis, msPeriod) :: rest =>
      let '(b, t1) := expired T millis t msPeriod in
      let '(bs, t2) := expired_calls T rest t1 in
      (b :: bs, t2)
  end.

(** The forward distance from [started] to [now], subtracted in [T]. *)
Definition forward_distance (T : width) (now started : Z) : Z :=
  wrap T (now - started).

(** A sequence of [expired_cont] calls on one object with no [start] in
    between, as [expired_calls] above. *)
Fixpoint expired_cont_calls (T : width) (calls : list (Z * Z)) (t : Timer)
  : list bool * Timer :=
  match calls with
  | [] => ([], t)
  | (millis, msPeriod) :: rest =>
      let '(b, t1) := expired_cont T millis t msPeriod in
      let '(bs, t2) := expired_cont_calls T rest t1 in
      (b :: bs, t2)
  end.

(** The counter [_millis()] shows [e] ticks after it showed [millis0]. *)
Definition millis_after (millis0 e : Z) : Z := wrap_ulong (millis0 + e).

(** Calls of [expired(msPeriod)] made [e] ticks after the counter showed
    [millis0], one for each [e] of the list. *)
Definition polls (millis0 msPeriod : Z) (es : list Z) : list (Z * Z) :=
  map (fun e => (millis_after millis0 e, msPeriod)) es.

End Timer.

(** ** The ring buffer behind uart2.cpp *)

Module Rbuf.

(** Modelled from the spec: rbuf.h and rbuf.c, which uart2.cpp includes and
    calls, are not among the sources.  The ring buffer has a backing storage
    of fixed capacity C, a write position and a read position, each an index
    into the storage. *)
Record RingBuffer : Type := mkRingBuffer {
  storage : list byte;
  wpos : nat;
  rpos : nat
}.

(** Modelled from the spec: the capacity C of the absent ring buffer is the
    size of its backing storage. *)
Definition capacity (rb : RingBuffer) : nat := length (storage rb).

(** Modelled from the spec: the absent ring buffer keeps one slot empty to
    tell full from empty without a counter. *)
Definition reserve : nat := 1.

(** Modelled from the spec: the usable capacity U of the absent ring buffer
    is the capacity minus the reserve. *)
Definition usable (rb : RingBuffer) : nat := capacity rb - reserve.

(** Modelled from the spec: positions of the absent ring buffer advance
    modulo the capacity. *)
Definition advance (rb : RingBuffer) (i : nat) : nat := (i + 1) mod capacity rb.

(** Modelled from the spec: the absent [rbuf_ini] resets both positions to the
    same value and fails when the capacity is below reserve + 1. *)
Definition rbuf_ini (c : nat) : option RingBuffer :=
  if c <? reserve + 1 then None
  else Some {| storage := replicate c x00; wpos := 0; rpos := 0 |}.

(** Modelled from the spec: the absent [rbuf_empty] is true iff the read
    position equals the write position. *)
Definition rbuf_empty (rb : RingBuffer) : bool := rpos rb =? wpos rb.

(** Modelled from the spec: the outcome of the absent [rbuf_put]. *)
Inductive put_result : Type :=
| PutOk
| Full.

(** Modelled from the spec: the absent [rbuf_put] reports Full, and changes
    nothing, when advancing the write position by one would reach the read
    position; otherwise it stores the byte at the write position and advances
    that position. *)
Definition rbuf_put (rb : RingBuffer) (b : byte) : put_result * RingBuffer :=
  if advance rb (wpos rb) =? rpos rb then (Full, rb)
  else (PutOk, {| storage := <[wpos rb := b]> (storage rb);
                  wpos := advance rb (wpos rb);
                  rpos := rpos rb |}).

(** Modelled from the spec: the absent [rbuf_get] returns nothing when the
    buffer is empty; otherwise the byte at the read position, and advances
    that position. *)
Definition rbuf_get (rb : RingBuffer) : option byte * RingBuffer :=
  if rbuf_empty rb then (None, rb)
  else (storage rb !! rpos rb,
        {| storage := storage rb;
           wpos := wpos rb;
           rpos := advance rb (rpos rb) |}).

(** Modelled from the spec: in C the absent [rbuf_put] answers with an [int];
    its caller in uart2.cpp takes a negative answer for Full. *)
Definition int_of_put (r : put_result) : Z :=
  match r with
  | PutOk => 0
  | Full => -1
  end.

(** Modelled from the spec: in C the absent [rbuf_get] answers with an [int],
    the byte as 0..255 and -1 for nothing. *)
Definition int_of_get (r : option byte) : Z :=
  match r with
  | Some b => Z.of_N (Byte.to_N b)
  | None => -1
  end.

(** The invariant the spec gives for the positions, with the least capacity
    [rbuf_ini] accepts. *)
Definition wf (rb : RingBuffer) : Prop :=
  reserve + 1 ≤ capacity rb ∧ wpos rb < capacity rb ∧ rpos rb < capacity rb.

(** The number of bytes stored, and the stored bytes from oldest to newest. *)
Definition count (rb : RingBuffer) : nat :=
  (wpos rb + capacity rb - rpos rb) mod capacity rb.

Definition contents (rb : RingBuffer) : list byte :=
  (λ i, default x00 (storage rb !! ((rpos rb + i) mod capacity rb)))
    <$> seq 0 (count rb).

(** Calls made on the buffer by its producer and its consumer, the answers
    they get, and a run of such calls. *)
Inductive op : Type :=
| Put (b : byte)
| Get.

Inductive reply : Type :=
| PutReply (r : put_result)
| GetReply (r : option byte).

Definition step (o : op) (rb : RingBuffer) : reply * RingBuffer :=
  match o with
  | Put b => let '(r, rb') := rbuf_put rb b in (PutReply r, rb')
  | Get => let '(r, rb') := rbuf_get rb in (GetReply r, rb')
  end.

Fixpoint run (ops : list op) (rb : RingBuffer) : list reply * RingBuffer :=
  match ops with
  | [] => ([], rb)
  | o :: ops' =>
      let '(r, rb1) := step o rb in
      let '(rs, rb2) := run ops' rb1 in
      (r :: rs, rb2)
  end.

(** The bytes handed to [rbuf_put], those it accepted, and those [rbuf_get]
    delivered, each in call order. *)
Fixpoint offered (ops : list op) : list byte :=
  match ops with
  | [] => []
  | Put b :: ops' => b :: offered ops'
  | Get :: ops' => offered ops'
  end.

Fixpoint accepted (ops : list op) (rs : list reply) : list byte :=
  match ops, rs with
  | Put b :: ops', PutReply PutOk :: rs' => b :: accepted ops' rs'
  | _ :: ops', _ :: rs' => accepted ops' rs'
  | _, _ => []
  end.

Fixpoint delivered (rs : list reply) : list byte :=
  match rs with
  | [] => []
  | GetReply (Some b) :: rs' => b :: delivered rs'
  | _ :: rs' => delivered rs'
  end.

(** The queue of the spec's words, to hold the ring buffer against: a list of
    at most [U] bytes, oldest first.  A put is refused with Full exactly when
    the list holds [U] bytes and otherwise adds its byte at the end; a get
    returns nothing on the empty list and otherwise takes the first byte. *)
Definition queue_step (U : nat) (o : op) (q : list byte) : reply * list byte :=
  match o with
  | Put b =>
      if length q <? U then (PutReply PutOk, q ++ [b]) else (PutReply Full, q)
  | Get =>
      match q with
      | [] => (GetReply None, [])
      | x :: q' => (GetReply (Some x), q')
      end
  end.

Fixpoint queue_run (U : nat) (ops : list op) (q : list byte)
  : list reply * list byte :=
  match ops with
  | [] => ([], q)
  | o :: ops' =>
      let '(r, q1) := queue_step U o q in
      let '(rs, q2) := queue_run U ops' q1 in
      (r :: rs, q2)
  end.

End Rbuf.

(** ** uart2.cpp *)

Module Uart2.
Import Rbuf.

(** The line [puts_P] prints in the receive interrupt. *)
Definition rx_full_message : string := "USART2 rx Full!!!".

(** The state the functions of uart2.cpp work on: the receive buffer
    [uart2_ibuf] and the lines written to standard output. *)
Record state : Type := mkState {
  uart2_ibuf : RingBuffer;
  stdout_lines : list string
}.

(** [sizeof(uart2_ibuf)] *)
Definition uart2_ibuf_size : nat := 20.

(** The buffer part of [uart2_init]: [rbuf_ini(uart2_ibuf, sizeof(uart2_ibuf) - 4)]. *)
Definition uart2_init_ibuf : option RingBuffer := rbuf_ini (uart2_ibuf_size - 4).

(** [uart2_getchar] *)
Definition uart2_getchar (st : state) : Z * state :=
  if rbuf_empty (uart2_ibuf st) then (-1, st)%Z
  else
    let '(r, rb) := rbuf_get (uart2_ibuf st) in
    (int_of_get r, {| uart2_ibuf := rb; stdout_lines := stdout_lines st |}).

(** [ISR(USART2_RX_vect)]; [udr2] is the byte read from the data register. *)
Definition ISR_USART2_RX_vect (udr2 : byte) (st : state) : state :=
  let '(r, rb) := rbuf_put (uart2_ibuf st) udr2 in
  if (int_of_put r <? 0)%Z
  then {| uart2_ibuf := rb;
          stdout_lines := stdout_lines st ++ [rx_full_message] |}
  else {| uart2_ibuf := rb; stdout_lines := stdout_lines st |}.

(** What [uart2_putchar] does to the device registers, in order. *)
Inductive io_event : Type :=
| ReadUCSR2A (v : Z)
| WriteUDR2 (c : byte).

Section Putchar.

(** The number of the data-register-empty bit in UCSR2A, named by <avr/io.h>. *)
Variable UDRE2 : Z.

(** [#define uart2_txready (UCSR2A & (1 << UDRE2))] *)
Definition uart2_txready (ucsr2a : Z) : Z := Z.land ucsr2a (Z.shiftl 1 UDRE2).

(** [uart2_putchar], its wait loop unrolled at most [fuel] times.
    [UCSR2A k] is the value the status register shows at its read number [k];
    the call starts with read number [k].  The answer is the return value, if
    the call returned within [fuel] reads, and the register accesses made. *)
Fixpoint uart2_putchar (fuel : nat) (c : byte) (UCSR2A : nat -> Z) (k : nat)
  : option Z * list io_event :=
  match fuel with
  | O => (None, [])
  | S fuel' =>
      let v := UCSR2A k in
      if (uart2_txready v =? 0)%Z
      then
        let '(r, tr) := uart2_putchar fuel' c UCSR2A (S k) in
        (r, ReadUCSR2A v :: tr)
      else (Some 0%Z, [ReadUCSR2A v; WriteUDR2 c])
  end.

End Putchar.

(** The receive interrupt firing once for each byte of [bs], in order, with
    no read in between. *)
Fixpoint receive (bs : list byte) (st : state) : state :=
  match bs with
  | [] => st
  | b :: bs' => receive bs' (ISR_USART2_RX_vect b st)
  end.

(** [n] calls of [uart2_getchar] in a row, with no interrupt in between. *)
Fixpoint read_n (n : nat) (st : state) : list Z * state :=
  match n with
  | O => ([], st)
  | S n' =>
      let '(r, st1) := uart2_getchar st in
      let '(rs, st2) := read_n n' st1 in
      (r :: rs, st2)
  end.

(** The 8-bit device registers [uart2_init] writes. *)
Record registers : Type := mkRegisters {
  reg_DDRH : Z;
  reg_PORTH : Z;
  reg_UCSR2A : Z;
  reg_UCSR2B : Z;
  reg_UBRR2L : Z
}.

(** Conversion to [uint8_t], the type of the registers. *)
Definition uint8 (x : Z) : Z := (x mod 256)%Z.

Section Init.

(** Bit numbers named by <avr/io.h>. *)
Variables U2X2 RXEN2 TXEN2 RXCIE2 : Z.

(** The register writes of [uart2_init], in the order of the source.
    [baud_select] is the value of [UART_BAUD_SELECT(baudRate, F_CPU)], a
    floating-point expression, as converted for the assignment to UBRR2L.
    The call of [rbuf_ini] is [uart2_init_ibuf] above; [fdev_setup_stream],
    which only fills in [_uart2io], is left out. *)
Definition uart2_init_registers (baud_select : Z) (r : registers) : registers :=
  let ddrh := uint8 (Z.land (reg_DDRH r) (Z.lnot 1)) in
  let porth := uint8 (Z.lor (reg_PORTH r) 1) in
  let ucsr2a := uint8 (Z.lor (reg_UCSR2A r) (Z.shiftl 1 U2X2)) in
  let ubrr2l := uint8 baud_select in
  let ucsr2b := uint8 (Z.lor (Z.shiftl 1 RXEN2) (Z.shiftl 1 TXEN2)) in
  let ucsr2b := uint8 (Z.lor ucsr2b (Z.shiftl 1 RXCIE2)) in
  {| reg_DDRH := ddrh;
     reg_PORTH := porth;
     reg_UCSR2A := ucsr2a;
     reg_UCSR2B := ucsr2b;
     reg_UBRR2L := ubrr2l |}.

End Init.

End Uart2.

(** ** first_lay_cal.cpp: the table-driven command sequences

    The functions that format floating-point arguments ([lay1cal_intro_line],
    [lay1cal_meander_start], [lay1cal_meander], [lay1cal_square]) are not
    embedded. *)

Module FirstLayCal.

(** A command string in program memory.  The code compares such strings by
    address, so each object is a value of its own: the strings of messages.h
    by their names, the arrays and literals of first_lay_cal.cpp by their
    text. *)
Inductive pgm_str : Type :=
| MSG_M107
| MSG_M702
| MSG_G90
| MSG_M83
| MSG_G91
| MSG_M84
| Text (s : string).

(** [pgm_ptr == MSG_M702] *)
Definition is_MSG_M702 (p : pgm_str) : bool :=
  match p with
  | MSG_M702 => true
  | _ => false
  end.

(** The calls a function makes to the command queue, in order. *)
Inductive call : Type :=
| enquecommand_P (cmd : pgm_str)
| enquecommandf_P (fmt : pgm_str) (arg : Z).

(** The loop of [lay1cal_common_enqueue_loop] from index [i] with [n] rounds
    to go.  [mmu_enabled] is what [MMU2::mmu2.Enabled()] answers during the
    call.  Reading past the end of the table has no defined result. *)
Fixpoint enqueue_loop_from (mmu_enabled : bool) (cmd_sequence : list pgm_str)
  (i n : nat) : option (list call) :=
  match n with
  | O => Some []
  | S n' =>
      match cmd_sequence !! i with
      | None => None
      | Some pgm_ptr =>
          if is_MSG_M702 pgm_ptr && negb mmu_enabled
          then enqueue_loop_from mmu_enabled cmd_sequence (S i) n'
          else
            match enqueue_loop_from mmu_enabled cmd_sequence (S i) n' with
            | None => None
            | Some calls => Some (enquecommand_P pgm_ptr :: calls)
            end
      end
  end.

(** [lay1cal_common_enqueue_loop] *)
Definition lay1cal_common_enqueue_loop (mmu_enabled : bool)
  (cmd_sequence : list pgm_str) (steps : nat) : option (list call) :=
  enqueue_loop_from mmu_enabled cmd_sequence 0 steps.

Definition zero_extrusion : pgm_str := Text "G92E0".
Definition feedrate_F1080 : pgm_str := Text "G1F1080".

(** The table of [lay1cal_wait_preheat] *)
Definition preheat_cmd : list pgm_str :=
  [MSG_M107; Text "M190"; Text "M109"; Text "G28"; zero_extrusion].

(** [lay1cal_wait_preheat] *)
Definition lay1cal_wait_preheat (mmu_enabled : bool) : option (list call) :=
  lay1cal_common_enqueue_loop mmu_enabled preheat_cmd (length preheat_cmd).

(** The table of [lay1cal_before_meander]; two of its entries are compiled in
    only when NEW_FIRST_LAYER_CAL is not defined. *)
Definition cmd_pre_meander (NEW_FIRST_LAYER_CAL : bool) : list pgm_str :=
  [zero_extrusion; MSG_G90; MSG_M83]
  ++ (if NEW_FIRST_LAYER_CAL then []
      else [Text "G1E-1.5F2100"; Text "G1Z5F7200"])
  ++ [Text "M204S1000"].

(** [lay1cal_before_meander] *)
Definition lay1cal_before_meander (NEW_FIRST_LAYER_CAL mmu_enabled : bool)
  : option (list call) :=
  lay1cal_common_enqueue_loop mmu_enabled
    (cmd_pre_meander NEW_FIRST_LAYER_CAL)
    (length (cmd_pre_meander NEW_FIRST_LAYER_CAL)).

(** The table of [lay1cal_finish] *)
Definition cmd_cal_finish : list pgm_str :=
  [MSG_G90; MSG_M107; Text "G1E-0.075F2100"; Text "M140S0"; Text "G1Z10F1300";
   Text "G1X10Y180F4000"; MSG_M702; Text "M104S0"; MSG_M84].

(** [lay1cal_finish] *)
Definition lay1cal_finish (mmu_enabled : bool) : option (list call) :=
  lay1cal_common_enqueue_loop mmu_enabled cmd_cal_finish (length cmd_cal_finish).

(** [lay1cal_load_filament].  [current_tool] is what
    [MMU2::mmu2.get_current_tool()] answers, [FILAMENT_UNKNOWN] the value of
    [(uint8_t)MMU2::FILAMENT_UNKNOWN]; both and [filament] are [uint8_t]. *)
Definition lay1cal_load_filament (mmu_enabled : bool)
  (current_tool FILAMENT_UNKNOWN filament : Z) : bool * list call :=
  if mmu_enabled then
    let calls := [enquecommand_P MSG_M83;
                  enquecommand_P (Text "G1Y-3F1000");
                  enquecommand_P (Text "G1Z0.4")] in
    if (current_tool =? filament)%Z then (false, calls)
    else
      let calls :=
        if negb (current_tool =? FILAMENT_UNKNOWN)%Z
        then calls ++ [enquecommand_P MSG_M702]
        else calls in
      (true, calls ++ [enquecommandf_P (Text "T%d") filament])
  else (false, []).

End FirstLayCal.

(** * Verification *)

(** ** Fixed-width unsigned arithmetic *)

Module Wrap.
Local Open Scope Z_scope.

Lemma add_cases (M a b : Z) :
  0 <= a < M -> 0 <= b < M ->
  (a + b) mod M = if a + b <? M then a + b else a + b - M.
Proof.
  intros Ha Hb. destruct (Z.ltb_spec (a + b) M) as [Hlt | Hge].
  - apply Z.mod_small. lia.
  - symmetry. apply (Z.mod_unique_pos _ _ 1); lia.
Qed.

Lemma sub_cases (M a b : Z) :
  0 <= a < M -> 0 <= b < M ->
  (a - b) mod M = if b <=? a then a - b else a - b + M.
Proof.
  intros Ha Hb. destruct (Z.leb_spec b a) as [Hle | Hgt].
  - apply Z.mod_small. lia.
  - symmetry. apply (Z.mod_unique_pos _ _ (-1)); lia.
Qed.

End Wrap.

(** ** Properties of the timer *)

Module TimerFacts.
Import Timer.
Local Open Scope Z_scope.

(** *** Small checks *)

Example expired_short_wrap_4 :
  expired UnsignedShort 4 (mkTimer 65530 true) 10 = (true, mkTimer 65530 false).
Proof. reflexivity. Qed.

Example expired_short_wrap_3 :
  expired UnsignedShort 3 (mkTimer 65530 true) 10 = (false, mkTimer 65530 true).
Proof. reflexivity. Qed.

Example elapsed_short_high_counter :
  elapsed UnsignedShort 65541 (mkTimer 65530 true) = (11, mkTimer 65530 true).
Proof. reflexivity. Qed.

(** *** Facts about the two widths *)

Lemma modulus_pos T : 0 < modulus T.
Proof. destruct T; reflexivity. Qed.

Lemma modulus_divides_ulong T : (modulus T | 2 ^ 32).
Proof.
  destruct T; [exists (2 ^ 16) | exists 1]; reflexivity.
Qed.

Lemma wrap_in_range T x : in_range T (wrap T x).
Proof. apply Z.mod_pos_bound, modulus_pos. Qed.

Lemma wrap_small T x : in_range T x -> wrap T x = x.
Proof. intros H. apply Z.mod_small, H. Qed.

Lemma wrap_wrap_ulong T x : wrap T (wrap_ulong x) = wrap T x.
Proof.
  apply Z.mod_mod_divide, modulus_divides_ulong.
Qed.

Lemma wrap_sub_wrap_l T a b : wrap T (wrap T a - b) = wrap T (a - b).
Proof.
  unfold wrap. rewrite Zminus_mod_idemp_l. reflexivity.
Qed.

(** The comparison cascade of [expired] decides [msPeriod <= now - started]
    in [T]. *)
Lemma cascade_spec T s p n :
  in_range T s -> in_range T p -> in_range T n ->
  (if s <=? wrap T (s + p)
   then (wrap T (s + p) <=? n) || (n <? s)
   else (wrap T (s + p) <=? n) && (n <? s))
  = (p <=? forward_distance T n s).
Proof.
  unfold in_range, forward_distance, wrap. intros Hs Hp Hn.
  rewrite Wrap.add_cases, Wrap.sub_cases by assumption.
  destruct (Z.ltb_spec (s + p) (modulus T));
    destruct (Z.leb_spec s n);
    repeat match goal with
           | |- context [?a <=? ?b] => destruct (Z.leb_spec a b)
           | |- context [?a <? ?b] => destruct (Z.ltb_spec a b)
           end; simpl; try reflexivity; lia.
Qed.

Lemma expired_running T millis t p :
  m_isRunning t = true -> in_range T (m_started t) -> in_range T p ->
  expired T millis t p =
    if p <=? forward_distance T (wrap T millis) (m_started t)
    then (true, mkTimer (m_started t) false)
    else (false, t).
Proof.
  intros Hrun Hs Hp. unfold expired. rewrite Hrun. cbn [negb].
  cbv zeta. rewrite cascade_spec by auto using wrap_in_range. reflexivity.
Qed.

Lemma expired_not_running T millis t p :
  m_isRunning t = false -> expired T millis t p = (false, t).
Proof. intros H. unfold expired. rewrite H. reflexivity. Qed.

(** What a call of [expired] can do to the object. *)
Lemma expired_effect T millis t p :
  expired T millis t p = (false, t) \/
  (m_isRunning t = true /\
   expired T millis t p = (true, mkTimer (m_started t) false)).
Proof.
  unfold expired. destruct (m_isRunning t); cbn [negb]; cbv zeta.
  - match goal with |- context [if ?c then (true, _) else _] => destruct c end;
      auto.
  - auto.
Qed.


Lemma expired_calls_not_running T calls t :
  m_isRunning t = false ->
  expired_calls T calls t = (repeat false (length calls), t).
Proof.
  intros Hrun. induction calls as [| [millis p] rest IH]; [reflexivity |].
  cbn [expired_calls]. rewrite expired_not_running, IH by assumption.
  reflexivity.
Qed.

Lemma count_occ_repeat_false n : count_occ bool_dec (repeat false n) true = 0%nat.
Proof. induction n; [reflexivity | exact IHn]. Qed.

Lemma expired_calls_count T calls t :
  (count_occ bool_dec (fst (expired_calls T calls t)) true <= 1)%nat.
Proof.
  revert t. induction calls as [| [millis p] rest IH]; intros t.
  - cbn. lia.
  - cbn [expired_calls].
    destruct (expired_effect T millis t p) as [-> | [_ ->]].
    + specialize (IH t). destruct (expired_calls T rest t) as [bs t2].
      cbn in *. exact IH.
    + rewrite expired_calls_not_running by reflexivity.
      cbn. rewrite count_occ_repeat_false. lia.
Qed.

(** *** The claims *)

(** C1, as the code has it.  For every timer whose [m_started] is a value of
    [T] and every period [p] of type [T], [expired(p)] returns true if and only
    if the timer is running and the forward distance [now - started],
    subtracted in [T], is at least [p].  For a running timer it returns true at
    [now = started + p], and, when [p >= 1], false at [now = started + p - 1].
    The 16-bit timer started at 65530 with period 10 is expired at counter
    value 4 and not at 3. *)
Theorem expired_iff_forward_distance T t p :
  in_range T (m_started t) -> in_range T p ->
  (forall millis,
      fst (expired T millis t p) = true <->
      m_isRunning t = true /\
      p <= forward_distance T (wrap T millis) (m_started t)) /\
  (forall millis,
      m_isRunning t = true ->
      wrap T millis = wrap T (m_started t + p) ->
      fst (expired T millis t p) = true) /\
  (forall millis,
      m_isRunning t = true -> 1 <= p ->
      wrap T millis = wrap T (m_started t + p - 1) ->
      fst (expired T millis t p) = false) /\
  (forall millis,
      (wrap UnsignedShort millis = 4 ->
       fst (expired UnsignedShort millis (mkTimer 65530 true) 10) = true) /\
      (wrap UnsignedShort millis = 3 ->
       fst (expired UnsignedShort millis (mkTimer 65530 true) 10) = false)).
Proof.
  intros Hs Hp.
  assert (Hiff : forall millis,
             fst (expired T millis t p) = true <->
             m_isRunning t = true /\
             p <= forward_distance T (wrap T millis) (m_started t)).
  { intros millis. destruct (m_isRunning t) eqn:Hrun.
    - rewrite expired_running by assumption.
      destruct (Z.leb_spec p (forward_distance T (wrap T millis) (m_started t)));
        cbn [fst]; split; intros; try discriminate; try tauto; lia.
    - rewrite expired_not_running by assumption. cbn [fst].
      split; [discriminate | intros [? _]; discriminate]. }
  split; [exact Hiff |]. split; [| split; [| intros millis; split]].
  - intros millis Hrun Hnow. apply Hiff. split; [assumption |].
    unfold forward_distance. rewrite Hnow, wrap_sub_wrap_l.
    replace (m_started t + p - m_started t) with p by lia.
    rewrite wrap_small; [lia | assumption].
  - intros millis Hrun Hp1 Hnow.
    destruct (fst (expired T millis t p)) eqn:E; [| reflexivity].
    apply Hiff in E. destruct E as [_ E]. revert E.
    unfold forward_distance. rewrite Hnow, wrap_sub_wrap_l.
    replace (m_started t + p - 1 - m_started t) with (p - 1) by lia.
    rewrite wrap_small; [lia | unfold in_range in *; lia].
  - intros Hnow. unfold expired; cbv zeta; cbn [negb m_isRunning m_started].
    rewrite Hnow. reflexivity.
  - intros Hnow. unfold expired; cbv zeta; cbn [negb m_isRunning m_started].
    rewrite Hnow. reflexivity.
Qed.

Lemma expired_iff_forward_distance_witness :
  fst (expired UnsignedShort 65540 (mkTimer 65530 true) 10) = true /\
  fst (expired UnsignedShort 65539 (mkTimer 65530 true) 10) = false.
Proof.
  destruct (expired_iff_forward_distance UnsignedShort (mkTimer 65530 true) 10)
    as (_ & Hat & Hbefore & _).
  - cbv. split; [discriminate | reflexivity].
  - cbv. split; [discriminate | reflexivity].
  - split.
    + apply Hat; reflexivity.
    + apply Hbefore; [reflexivity | lia | reflexivity].
Defined.

(** C1 as stated fails for the period 0: one tick before [started + 0], which
    in [T] is the counter value [started - 1], a running timer is reported
    expired, where the claim has false. *)
Lemma expired_period_zero_before_start :
  in_range UnsignedShort 5 /\ in_range UnsignedShort 0 /\
  wrap UnsignedShort 4 = wrap UnsignedShort (5 + 0 - 1) /\
  fst (expired UnsignedShort 4 (mkTimer 5 true) 0) = true.
Proof.
  cbv. repeat split; discriminate.
Qed.

(** C2: expiry is edge-triggered.  In any sequence of [expired] calls on one
    timer with no [start] in between, at most one call returns true; the call
    that returns true leaves the timer not running, and every later call of
    the sequence returns false. *)
Theorem expired_edge_triggered T t calls :
  (count_occ bool_dec (fst (expired_calls T calls t)) true <= 1)%nat /\
  (forall before millis p after,
      calls = before ++ (millis, p) :: after ->
      let t1 := snd (expired_calls T before t) in
      fst (expired T millis t1 p) = true ->
      m_isRunning (snd (expired T millis t1 p)) = false /\
      fst (expired_calls T after (snd (expired T millis t1 p)))
        = repeat false (length after)).
Proof.
  split; [apply expired_calls_count |].
  intros before millis p after _ t1 Htrue.
  destruct (expired_effect T millis t1 p) as [E | [_ E]];
    rewrite E in *; cbn [fst snd] in *; [discriminate |].
  split; [reflexivity |].
  rewrite expired_calls_not_running by reflexivity. reflexivity.
Qed.

Lemma expired_edge_triggered_witness :
  fst (expired_calls UnsignedShort [(3, 10); (4, 10); (5, 10); (70000, 10)]
         (mkTimer 65530 true)) = [false; true; false; false] /\
  m_isRunning (snd (expired UnsignedShort 4 (mkTimer 65530 true) 10)) = false /\
  fst (expired_calls UnsignedShort [(5, 10); (70000, 10)]
         (snd (expired UnsignedShort 4 (mkTimer 65530 true) 10)))
    = [false; false].
Proof.
  split; [reflexivity |].
  exact (proj2 (expired_edge_triggered UnsignedShort (mkTimer 65530 true)
                  [(3, 10); (4, 10); (5, 10); (70000, 10)])
           [(3, 10)] 4 10 [(5, 10); (70000, 10)] eq_refl eq_refl).
Defined.

(** C7: [expired_cont(p)] returns true if and only if the timer is not running
    or [expired(p)] returns true, and changes the timer as [expired(p)] does. *)
Theorem expired_cont_level_triggered T millis t p :
  fst (expired_cont T millis t p)
    = negb (m_isRunning t) || fst (expired T millis t p) /\
  snd (expired_cont T millis t p) = snd (expired T millis t p).
Proof.
  unfold expired_cont. destruct (m_isRunning t) eqn:Hrun; cbn [negb orb].
  - split; reflexivity.
  - rewrite expired_not_running by assumption. split; reflexivity.
Qed.

(** C8: [elapsed()] returns 0 when the timer is not running and otherwise
    [now - started], subtracted in [T]; it takes no period, and leaves
    [m_started] and [m_isRunning] as they are.  Five ticks after [start] it
    returns 5. *)
Theorem elapsed_forward_distance T millis t :
  fst (elapsed T millis t)
    = (if m_isRunning t
       then forward_distance T (wrap T millis) (m_started t)
       else 0) /\
  snd (elapsed T millis t) = t /\
  (forall now0, fst (elapsed T (wrap_ulong (now0 + 5)) (start T now0 t)) = 5).
Proof.
  assert (Hrun : forall m t', m_isRunning t' = true ->
             fst (elapsed T m t') = forward_distance T (wrap T m) (m_started t')).
  { intros m t' H. unfold elapsed, forward_distance. rewrite H. cbn [fst].
    now rewrite wrap_wrap_ulong, wrap_sub_wrap_l. }
  split; [| split; [reflexivity |]].
  - destruct (m_isRunning t) eqn:E; [now apply Hrun |].
    unfold elapsed. rewrite E. reflexivity.
  - intros now0. rewrite Hrun by reflexivity.
    unfold forward_distance, start. cbn [m_started].
    rewrite wrap_wrap_ulong, wrap_sub_wrap_l.
    unfold wrap. rewrite Zminus_mod_idemp_r.
    replace (now0 + 5 - now0) with 5 by lia.
    destruct T; reflexivity.
Qed.

(** C9: after [start()] at any counter value, [expired(0)] returns true at
    whatever counter value it is first called, the unchanged one included,
    and a second [expired(0)] without a new [start()] returns false. *)
Theorem expired_zero_period T t now0 now1 now2 :
  fst (expired T now1 (start T now0 t) 0) = true /\
  fst (expired T now0 (start T now0 t) 0) = true /\
  fst (expired T now2 (snd (expired T now1 (start T now0 t) 0)) 0) = false.
Proof.
  assert (H : forall m, expired T m (start T now0 t) 0
                        = (true, mkTimer (wrap T now0) false)).
  { intros m. rewrite expired_running;
      [| reflexivity | apply wrap_in_range
       | split; [lia | apply modulus_pos]].
    cbn [start m_started].
    destruct (Z.leb_spec 0 (forward_distance T (wrap T m) (wrap T now0)))
      as [_ | Hneg]; [reflexivity |].
    pose proof (wrap_in_range T (wrap T m - wrap T now0)) as [Hge _].
    unfold forward_distance in Hneg. lia. }
  rewrite !H. cbn [fst snd].
  rewrite expired_not_running by reflexivity. auto.
Qed.

(** C10: a call of [expired] that returns false leaves the timer as it was;
    the one that returns true only clears [m_isRunning]; [m_started] is never
    written. *)
Theorem expired_frame T millis t p :
  snd (expired T millis t p)
    = (if fst (expired T millis t p)
       then mkTimer (m_started t) false
       else t) /\
  m_started (snd (expired T millis t p)) = m_started t /\
  m_isRunning (snd (expired T millis t p))
    = m_isRunning t && negb (fst (expired T millis t p)).
Proof.
  destruct (expired_effect T millis t p) as [-> | [Hrun ->]]; cbn [fst snd].
  - rewrite andb_true_r. auto.
  - rewrite Hrun. auto.
Qed.

(** *** Further properties of Timer.cpp *)

Lemma elapsed_value T millis t :
  fst (elapsed T millis t)
  = if m_isRunning t
    then forward_distance T (wrap T millis) (m_started t)
    else 0.
Proof.
  unfold elapsed, forward_distance. cbn [fst].
  destruct (m_isRunning t); [| reflexivity].
  now rewrite wrap_wrap_ulong, wrap_sub_wrap_l.
Qed.

(** The distance a timer started at counter value [millis0] sees [e] ticks
    later. *)
Lemma distance_after_start T millis0 e :
  forward_distance T (wrap T (millis_after millis0 e)) (wrap T millis0)
  = e mod modulus T.
Proof.
  unfold forward_distance, millis_after.
  rewrite wrap_wrap_ulong, wrap_sub_wrap_l.
  unfold wrap. rewrite Zminus_mod_idemp_r. f_equal. lia.
Qed.

Lemma expired_after_start T t millis0 e p :
  in_range T p ->
  expired T (millis_after millis0 e) (start T millis0 t) p
  = if p <=? e mod modulus T
    then (true, mkTimer (wrap T millis0) false)
    else (false, start T millis0 t).
Proof.
  intros Hp. rewrite expired_running;
    [| reflexivity | apply wrap_in_range | assumption].
  cbn [start m_started]. now rewrite distance_after_start.
Qed.

(** [expired] and [elapsed] agree: at the same counter value, [expired(p)]
    returns true exactly when the timer is running and [elapsed()] is at
    least [p]. *)
Theorem expired_agrees_with_elapsed T millis t p :
  in_range T (m_started t) -> in_range T p ->
  fst (expired T millis t p)
  = m_isRunning t && (p <=? fst (elapsed T millis t)).
Proof.
  intros Hs Hp. rewrite elapsed_value.
  destruct (m_isRunning t) eqn:Hrun; cbn [andb].
  - rewrite expired_running by assumption.
    now destruct (p <=? forward_distance T (wrap T millis) (m_started t)).
  - now rewrite expired_not_running.
Qed.

Lemma expired_agrees_with_elapsed_witness :
  fst (expired UnsignedShort 4 (mkTimer 65530 true) 10)
  = true && (10 <=? fst (elapsed UnsignedShort 4 (mkTimer 65530 true))).
Proof.
  apply (expired_agrees_with_elapsed UnsignedShort 4 (mkTimer 65530 true) 10);
    cbv; split; (discriminate || reflexivity).
Defined.

(** What [expired(p)] answers [e] ticks after [start()] depends on [e] only
    modulo 2^bits: it is true exactly when [p <= e mod 2^bits].  So a check
    made in time ([p <= e < 2^bits]) reports expiry, and a first check made
    after the counter has come round again ([e mod 2^bits < p]) does not. *)
Theorem expired_after_start_periodic T t millis0 e p :
  in_range T p ->
  fst (expired T (millis_after millis0 e) (start T millis0 t) p)
  = (p <=? e mod modulus T).
Proof.
  intros Hp. rewrite expired_after_start by assumption.
  now destruct (p <=? e mod modulus T).
Qed.

Lemma expired_after_start_periodic_witness :
  fst (expired UnsignedShort (millis_after 1000 65541)
         (start UnsignedShort 1000 (mkTimer 0 false)) 10) = false /\
  fst (expired UnsignedShort (millis_after 1000 65535)
         (start UnsignedShort 1000 (mkTimer 0 false)) 10) = true.
Proof.
  split.
  - rewrite (expired_after_start_periodic UnsignedShort (mkTimer 0 false)
               1000 65541 10); [reflexivity | cbv; split; (discriminate || reflexivity)].
  - rewrite (expired_after_start_periodic UnsignedShort (mkTimer 0 false)
               1000 65535 10); [reflexivity | cbv; split; (discriminate || reflexivity)].
Defined.

Lemma expired_calls_before_period T t millis0 p before rest :
  in_range T p ->
  Forall (fun x => 0 <= x < p) before ->
  expired_calls T (polls millis0 p (before ++ rest)) (start T millis0 t)
  = (repeat false (length before)
       ++ fst (expired_calls T (polls millis0 p rest) (start T millis0 t)),
     snd (expired_calls T (polls millis0 p rest) (start T millis0 t))).
Proof.
  intros Hp Hall. induction Hall as [| x before Hx _ IH].
  - cbn [app length repeat]. now destruct (expired_calls _ _ _).
  - cbn [app polls map expired_calls length repeat].
    rewrite expired_after_start by assumption.
    rewrite Z.mod_small by (unfold in_range in Hp; lia).
    destruct (Z.leb_spec p x) as [Hle | _]; [lia |].
    fold (polls millis0 p (before ++ rest)). rewrite IH. reflexivity.
Qed.

(** The polling rule of the comment above [expired]: start the timer, then
    call [expired(p)] so that the first call that comes [p] or more ticks
    after the start comes at most (maximum of [T]) - [p] ticks after the call
    before it (or after the start).  Then the calls before it return false,
    that call returns true and stops the timer, and all later calls return
    false. *)
Theorem expired_caught_by_polling T t millis0 p before e after :
  in_range T p ->
  Forall (fun x => 0 <= x < p) before ->
  p <= e ->
  e - List.last before 0 <= modulus T - 1 - p ->
  expired_calls T (polls millis0 p (before ++ e :: after)) (start T millis0 t)
  = (repeat false (length before) ++ true :: repeat false (length after),
     mkTimer (wrap T millis0) false).
Proof.
  intros Hp Hall Hpe Hgap.
  assert (Hlast : List.last before 0 <= p).
  { destruct Hp as [Hp0 _]. clear Hgap.
    induction Hall as [| x l Hx Hl IH]; [exact Hp0 |].
    destruct l as [| y l]; [cbn; lia | exact IH]. }
  rewrite expired_calls_before_period by assumption.
  cbn [polls map expired_calls].
  rewrite expired_after_start by assumption.
  rewrite Z.mod_small by (unfold in_range in Hp; lia).
  destruct (Z.leb_spec p e) as [_ | Hlt]; [| lia].
  rewrite expired_calls_not_running by reflexivity.
  cbn [fst snd]. now rewrite length_map.
Qed.

Lemma expired_caught_by_polling_witness :
  expired_calls UnsignedShort
    (polls 60000 30000 ([10000; 29999] ++ 65000 :: [65001; 100000]))
    (start UnsignedShort 60000 (mkTimer 0 false))
  = ([false; false; true; false; false], mkTimer 60000 false).
Proof.
  apply (expired_caught_by_polling UnsignedShort (mkTimer 0 false) 60000 30000
           [10000; 29999] 65000 [65001; 100000]).
  - cbv; split; (discriminate || reflexivity).
  - repeat constructor; lia.
  - lia.
  - cbv. discriminate.
Defined.

(** [elapsed()] always fits the type [T]; [e] ticks after [start()] it is
    [e] modulo 2^bits, so it is exact for fewer than 2^bits ticks and starts
    again from 0 after that. *)
Theorem elapsed_after_start T t millis0 :
  (forall millis t', in_range T (fst (elapsed T millis t'))) /\
  (forall e,
      fst (elapsed T (millis_after millis0 e) (start T millis0 t))
      = e mod modulus T) /\
  (forall e, 0 <= e < modulus T ->
      fst (elapsed T (millis_after millis0 e) (start T millis0 t)) = e).
Proof.
  assert (H : forall e,
             fst (elapsed T (millis_after millis0 e) (start T millis0 t))
             = e mod modulus T).
  { intros e. rewrite elapsed_value. cbn [start m_isRunning m_started].
    apply distance_after_start. }
  split; [| split].
  - intros millis t'. rewrite elapsed_value.
    destruct (m_isRunning t'); [apply wrap_in_range |].
    split; [lia | apply modulus_pos].
  - exact H.
  - intros e He. rewrite H. now apply Z.mod_small.
Qed.

Lemma elapsed_after_start_witness :
  fst (elapsed UnsignedShort (millis_after 4294967290 300)
         (start UnsignedShort 4294967290 (mkTimer 0 false))) = 300.
Proof.
  apply (proj2 (proj2 (elapsed_after_start UnsignedShort (mkTimer 0 false)
                         4294967290))).
  cbv. split; (discriminate || reflexivity).
Defined.

Lemma expired_cont_not_running T millis t p :
  m_isRunning t = false -> expired_cont T millis t p = (true, t).
Proof. intros H. unfold expired_cont. now rewrite H. Qed.

Lemma expired_cont_calls_not_running T calls t :
  m_isRunning t = false ->
  expired_cont_calls T calls t = (repeat true (length calls), t).
Proof.
  intros Hrun. induction calls as [| [millis p] rest IH]; [reflexivity |].
  cbn [expired_cont_calls]. rewrite expired_cont_not_running, IH by assumption.
  reflexivity.
Qed.

(** [expired_cont] latches: a call that returns true leaves the timer not
    running, and from then on every call returns true, whatever the counter
    and the periods, until the timer is started again. *)
Theorem expired_cont_latches T t millis p after :
  fst (expired_cont T millis t p) = true ->
  m_isRunning (snd (expired_cont T millis t p)) = false /\
  fst (expired_cont_calls T after (snd (expired_cont T millis t p)))
  = repeat true (length after).
Proof.
  intros Htrue.
  assert (Hstop : m_isRunning (snd (expired_cont T millis t p)) = false).
  { unfold expired_cont in *. destruct (m_isRunning t) eqn:Hrun; cbn [negb] in *.
    - destruct (expired_effect T millis t p) as [E | [_ E]];
        rewrite E in *; [discriminate | reflexivity].
    - exact Hrun. }
  split; [exact Hstop |].
  now rewrite expired_cont_calls_not_running.
Qed.

Lemma expired_cont_latches_witness :
  m_isRunning (snd (expired_cont UnsignedLong 150 (mkTimer 100 true) 50)) = false /\
  fst (expired_cont_calls UnsignedLong [(151, 1000); (0, 4294967295)]
         (snd (expired_cont UnsignedLong 150 (mkTimer 100 true) 50)))
  = [true; true].
Proof.
  apply (expired_cont_latches UnsignedLong (mkTimer 100 true) 150 50
           [(151, 1000); (0, 4294967295)]).
  reflexivity.
Defined.

(** A 16-bit timer and a 32-bit timer started at the same moment give the
    same answers from [expired] and [elapsed] for the first 65535 ticks. *)
Theorem short_timer_agrees_with_long t t' millis0 e p :
  in_range UnsignedShort p ->
  0 <= e < modulus UnsignedShort ->
  fst (expired UnsignedShort (millis_after millis0 e)
         (start UnsignedShort millis0 t) p)
  = fst (expired UnsignedLong (millis_after millis0 e)
           (start UnsignedLong millis0 t') p) /\
  fst (elapsed UnsignedShort (millis_after millis0 e)
         (start UnsignedShort millis0 t))
  = fst (elapsed UnsignedLong (millis_after millis0 e)
           (start UnsignedLong millis0 t')).
Proof.
  intros Hp He.
  assert (Hp' : in_range UnsignedLong p).
  { unfold in_range, modulus in *. cbn [bits] in *. lia. }
  assert (He' : 0 <= e < modulus UnsignedLong).
  { unfold modulus in *. cbn [bits] in *. lia. }
  rewrite !expired_after_start by assumption.
  rewrite !elapsed_value. cbn [start m_isRunning m_started].
  rewrite !distance_after_start.
  rewrite !Z.mod_small by assumption.
  split; [now destruct (p <=? e) | reflexivity].
Qed.

Lemma short_timer_agrees_with_long_witness :
  fst (expired UnsignedShort (millis_after 7 65535)
         (start UnsignedShort 7 (mkTimer 0 false)) 65535)
  = fst (expired UnsignedLong (millis_after 7 65535)
           (start UnsignedLong 7 (mkTimer 3 true)) 65535).
Proof.
  apply (short_timer_agrees_with_long (mkTimer 0 false) (mkTimer 3 true)
           7 65535 65535);
    cbv; split; (discriminate || reflexivity).
Defined.

(** Once [expired] has reported expiry the timer is idle: until it is started
    again [elapsed()] returns 0 and [expired_cont] returns true, at every
    counter value and for every period. *)
Theorem expired_then_idle T millis t p millis' p' :
  fst (expired T millis t p) = true ->
  fst (elapsed T millis' (snd (expired T millis t p))) = 0 /\
  fst (expired_cont T millis' (snd (expired T millis t p)) p') = true /\
  snd (expired_cont T millis' (snd (expired T millis t p)) p')
  = snd (expired T millis t p).
Proof.
  intros Htrue.
  destruct (expired_effect T millis t p) as [E | [_ E]];
    rewrite E in *; cbn [fst snd] in *; [discriminate |].
  rewrite elapsed_value, expired_cont_not_running by reflexivity.
  cbn [m_isRunning fst snd]. auto.
Qed.

Lemma expired_then_idle_witness :
  fst (elapsed UnsignedShort 9
         (snd (expired UnsignedShort 4 (mkTimer 65530 true) 10))) = 0 /\
  fst (expired_cont UnsignedShort 9
         (snd (expired UnsignedShort 4 (mkTimer 65530 true) 10)) 60000) = true.
Proof.
  destruct (expired_then_idle UnsignedShort 4 (mkTimer 65530 true) 10 9 60000
              eq_refl) as (H1 & H2 & _).
  split; [exact H1 | exact H2].
Defined.

End TimerFacts.

(** ** Properties of the ring buffer *)

Module RbufFacts.
Import Rbuf.

Lemma mod_cases (c x : nat) :
  0 < c → x < 2 * c → x mod c = if x <? c then x else x - c.
Proof.
  intros Hc Hx. destruct (Nat.ltb_spec x c) as [H | H].
  - apply Nat.mod_small; lia.
  - replace x with ((x - c) + 1 * c) at 1 by lia.
    rewrite Nat.Div0.mod_add. apply Nat.mod_small. lia.
Qed.

(** Turns the positions computed modulo the capacity into case splits. *)
Ltac mod_split :=
  repeat match goal with
         | |- context [?x mod ?c] =>
             rewrite (mod_cases c x) by lia;
             destruct (Nat.ltb_spec x c)
         | H : context [?x mod ?c] |- _ =>
             rewrite (mod_cases c x) in H by lia;
             destruct (Nat.ltb_spec x c)
         end.

Lemma wf_bounds rb :
  wf rb → 2 ≤ capacity rb ∧ wpos rb < capacity rb ∧ rpos rb < capacity rb.
Proof. unfold wf, reserve. lia. Qed.

Lemma count_cases rb :
  wf rb →
  count rb = if rpos rb <=? wpos rb
             then wpos rb - rpos rb
             else wpos rb + capacity rb - rpos rb.
Proof.
  intros (Hc & Hw & Hr)%wf_bounds. unfold count.
  destruct (Nat.leb_spec (rpos rb) (wpos rb)); mod_split; lia.
Qed.

Lemma count_le_usable rb : wf rb → count rb ≤ usable rb.
Proof.
  intros Hwf. rewrite count_cases by assumption.
  apply wf_bounds in Hwf as (Hc & Hw & Hr). unfold usable, reserve.
  destruct (Nat.leb_spec (rpos rb) (wpos rb)); lia.
Qed.

Lemma length_contents rb : length (contents rb) = count rb.
Proof. unfold contents. now rewrite length_fmap, length_seq. Qed.

Lemma rbuf_empty_count rb : wf rb → rbuf_empty rb = true ↔ count rb = 0.
Proof.
  intros Hwf. rewrite count_cases by assumption.
  apply wf_bounds in Hwf as (Hc & Hw & Hr). unfold rbuf_empty.
  rewrite Nat.eqb_eq.
  destruct (Nat.leb_spec (rpos rb) (wpos rb)); lia.
Qed.

Lemma rbuf_empty_contents rb : wf rb → rbuf_empty rb = true ↔ contents rb = [].
Proof.
  intros Hwf. rewrite rbuf_empty_count, <- length_contents by assumption.
  split; [apply nil_length_inv | now intros ->].
Qed.

Lemma rbuf_ini_wf c rb :
  rbuf_ini c = Some rb → wf rb ∧ contents rb = [] ∧ capacity rb = c.
Proof.
  unfold rbuf_ini, reserve. destruct (Nat.ltb_spec c (1 + 1)); [discriminate |].
  intros [= <-]. unfold wf, contents, count, capacity, reserve. cbn.
  rewrite length_replicate.
  rewrite Nat.sub_0_r, Nat.Div0.mod_same. repeat split; lia.
Qed.

(** [rbuf_put] on a buffer that holds fewer than U bytes *)
Lemma rbuf_put_room rb b :
  wf rb → count rb < usable rb →
  fst (rbuf_put rb b) = PutOk ∧
  wf (snd (rbuf_put rb b)) ∧
  capacity (snd (rbuf_put rb b)) = capacity rb ∧
  contents (snd (rbuf_put rb b)) = contents rb ++ [b].
Proof.
  intros Hwf Hroom. rewrite count_cases in Hroom by assumption.
  pose proof (count_cases rb Hwf) as Hcount.
  apply wf_bounds in Hwf as (Hc & Hw & Hr).
  unfold usable, reserve in Hroom. unfold rbuf_put, advance.
  destruct (Nat.eqb_spec ((wpos rb + 1) mod capacity rb) (rpos rb)) as [E | E].
  { exfalso. destruct (Nat.leb_spec (rpos rb) (wpos rb)); mod_split; lia. }
  cbn [fst snd].
  assert (Hcap : capacity {| storage := <[wpos rb:=b]> (storage rb);
                             wpos := (wpos rb + 1) mod capacity rb;
                             rpos := rpos rb |} = capacity rb).
  { unfold capacity. cbn. apply length_insert. }
  split; [reflexivity |]. split; [| split; [exact Hcap |]].
  - unfold wf, reserve. rewrite Hcap. cbn [wpos rpos].
    split; [lia |]. split; [apply Nat.mod_upper_bound; lia | lia].
  - unfold contents. rewrite Hcap. cbn [storage rpos].
    replace (count _) with (S (count rb)).
    2:{ unfold count at 2. rewrite Hcap. cbn [wpos rpos]. rewrite Hcount.
        destruct (Nat.leb_spec (rpos rb) (wpos rb)); mod_split; lia. }
    rewrite seq_S, fmap_app. cbn [fmap list_fmap]. f_equal.
    + apply list_fmap_ext. intros i x [-> Hlt]%lookup_seq.
      rewrite list_lookup_insert_ne; [reflexivity |].
      rewrite Hcount in Hlt. cbn.
      destruct (Nat.leb_spec (rpos rb) (wpos rb)); mod_split; lia.
    + replace ((rpos rb + (0 + count rb)) mod capacity rb) with (wpos rb).
      2:{ rewrite Hcount.
          destruct (Nat.leb_spec (rpos rb) (wpos rb)); mod_split; lia. }
      rewrite list_lookup_insert_eq by exact Hw. reflexivity.
Qed.

(** [rbuf_put] on a buffer that holds U bytes *)
Lemma rbuf_put_full rb b :
  wf rb → count rb = usable rb → rbuf_put rb b = (Full, rb).
Proof.
  intros Hwf Hfull. rewrite count_cases in Hfull by assumption.
  apply wf_bounds in Hwf as (Hc & Hw & Hr).
  unfold usable, reserve in Hfull. unfold rbuf_put, advance.
  destruct (Nat.eqb_spec ((wpos rb + 1) mod capacity rb) (rpos rb)) as [E | E];
    [reflexivity |].
  exfalso. destruct (Nat.leb_spec (rpos rb) (wpos rb)); mod_split; lia.
Qed.

(** [rbuf_get] on an empty buffer *)
Lemma rbuf_get_empty rb :
  rbuf_empty rb = true → rbuf_get rb = (None, rb).
Proof. intros H. unfold rbuf_get. now rewrite H. Qed.

(** [rbuf_get] on a buffer whose oldest byte is [b] *)
Lemma rbuf_get_head rb b q :
  wf rb → contents rb = b :: q →
  fst (rbuf_get rb) = Some b ∧
  wf (snd (rbuf_get rb)) ∧
  capacity (snd (rbuf_get rb)) = capacity rb ∧
  rpos (snd (rbuf_get rb)) = advance rb (rpos rb) ∧
  contents (snd (rbuf_get rb)) = q.
Proof.
  intros Hwf Hcont.
  assert (Hne : rbuf_empty rb = false).
  { destruct (rbuf_empty rb) eqn:E; [| reflexivity].
    apply rbuf_empty_contents in E; [congruence | assumption]. }
  pose proof (count_cases rb Hwf) as Hcount.
  assert (Hpos : count rb = S (length q)).
  { now rewrite <- length_contents, Hcont. }
  apply wf_bounds in Hwf as (Hc & Hw & Hr).
  unfold rbuf_get. rewrite Hne. cbn [fst snd rpos].
  set (rb' := {| storage := storage rb; wpos := wpos rb;
                 rpos := advance rb (rpos rb) |}).
  assert (Hcap : capacity rb' = capacity rb) by reflexivity.
  assert (Hadv : advance rb (rpos rb) < capacity rb).
  { unfold advance. apply Nat.mod_upper_bound. lia. }
  unfold contents in Hcont. rewrite Hpos in Hcont.
  cbn [seq fmap list_fmap] in Hcont. injection Hcont as Hb Hq.
  rewrite Nat.add_0_r, Nat.mod_small in Hb by lia.
  destruct (lookup_lt_is_Some_2 (storage rb) (rpos rb) Hr) as [x Hx].
  rewrite Hx in Hb. cbn in Hb. subst x.
  split; [exact Hx |]. split; [unfold wf, reserve; rewrite Hcap; cbn; lia |].
  split; [exact Hcap |]. split; [reflexivity |].
  rewrite <- Hq. unfold contents. rewrite Hcap. cbn [storage rpos rb'].
  replace (count rb') with (length q).
  2:{ unfold count. rewrite Hcap. cbn [wpos rpos rb']. unfold advance.
      rewrite Hcount in Hpos.
      destruct (Nat.leb_spec (rpos rb) (wpos rb)); mod_split; lia. }
  change (list_fmap nat byte ?f (seq 1 ?n)) with (f <$> seq 1 n).
  rewrite <- fmap_S_seq, <- list_fmap_compose.
  apply list_fmap_ext. intros i x [-> Hlt]%lookup_seq. cbn.
  do 2 f_equal. unfold advance.
  rewrite Hcount in Hpos.
  destruct (Nat.leb_spec (rpos rb) (wpos rb)); mod_split; lia.
Qed.

(** A run of calls keeps the invariant and behaves as a queue: what was stored
    before, followed by what the run accepted, is what the run delivered,
    followed by what is stored after. *)
Lemma run_queue ops :
  ∀ rb, wf rb →
    wf (snd (run ops rb)) ∧
    contents rb ++ accepted ops (fst (run ops rb))
      = delivered (fst (run ops rb)) ++ contents (snd (run ops rb)) ∧
    (count rb + length (offered ops) ≤ usable rb →
     accepted ops (fst (run ops rb)) = offered ops).
Proof.
  induction ops as [| o ops IH]; intros rb Hwf.
  - cbn. rewrite app_nil_r. auto.
  - destruct o as [b |]; cbn [run step].
    + pose proof (count_le_usable rb Hwf) as Hle.
      destruct (decide (count rb < usable rb)) as [Hroom | Hfull].
      * destruct (rbuf_put_room rb b Hwf Hroom) as (Hr & Hwf1 & Hcap & Hcont).
        destruct (rbuf_put rb b) as [r rb1]. cbn [fst snd] in *. subst r.
        destruct (IH rb1 Hwf1) as (Hwf2 & Hq & Hall).
        destruct (run ops rb1) as [rs rb2]. cbn [fst snd accepted delivered offered] in *.
        split; [assumption |]. split.
        -- rewrite <- Hq, Hcont, <- app_assoc. reflexivity.
        -- intros Hfit. f_equal. apply Hall.
           rewrite <- length_contents, Hcont, length_app, length_contents.
           unfold usable in *. rewrite Hcap. cbn [length] in *. lia.
      * rewrite rbuf_put_full by (assumption || lia).
        destruct (IH rb Hwf) as (Hwf2 & Hq & Hall).
        destruct (run ops rb) as [rs rb2]. cbn [fst snd accepted delivered offered] in *.
        split; [assumption |]. split; [assumption |].
        intros Hfit. cbn [length] in Hfit. lia.
    + destruct (contents rb) as [| b q] eqn:Hcont.
      * rewrite rbuf_get_empty by (now apply rbuf_empty_contents).
        destruct (IH rb Hwf) as (Hwf2 & Hq & Hall).
        destruct (run ops rb) as [rs rb2]. cbn [fst snd accepted delivered offered] in *.
        rewrite Hcont in Hq. auto.
      * destruct (rbuf_get_head rb b q Hwf Hcont) as (Hr & Hwf1 & Hcap & _ & Hcont1).
        destruct (rbuf_get rb) as [r rb1]. cbn [fst snd] in *. subst r.
        destruct (IH rb1 Hwf1) as (Hwf2 & Hq & Hall).
        destruct (run ops rb1) as [rs rb2]. cbn [fst snd accepted delivered offered] in *.
        split; [assumption |]. split.
        -- rewrite <- !app_comm_cons, <- Hq, Hcont1. reflexivity.
        -- intros Hfit. apply Hall.
           rewrite <- length_contents, Hcont1.
           rewrite <- length_contents, Hcont in Hfit.
           unfold usable in *. rewrite Hcap. cbn [length] in *. lia.
Qed.

(** The capacity never changes. *)
Lemma run_capacity ops : ∀ rb, capacity (snd (run ops rb)) = capacity rb.
Proof.
  induction ops as [| o ops IH]; intros rb; [reflexivity |].
  cbn [run]. destruct (step o rb) as [r rb1] eqn:Hstep.
  specialize (IH rb1). destruct (run ops rb1) as [rs rb2].
  cbn [snd] in *. rewrite IH.
  destruct o; cbn [step] in Hstep.
  - unfold rbuf_put in Hstep.
    destruct (advance rb (wpos rb) =? rpos rb); injection Hstep as _ <-;
      [reflexivity | apply length_insert].
  - unfold rbuf_get in Hstep.
    destruct (rbuf_empty rb); injection Hstep as _ <-; reflexivity.
Qed.

(** One call on the ring buffer answers, and leaves stored, what the same
    call on the queue of its stored bytes does. *)
Lemma step_queue o rb :
  wf rb →
  wf (snd (step o rb)) ∧
  capacity (snd (step o rb)) = capacity rb ∧
  fst (step o rb) = fst (queue_step (usable rb) o (contents rb)) ∧
  contents (snd (step o rb)) = snd (queue_step (usable rb) o (contents rb)).
Proof.
  intros Hwf. destruct o as [b |]; cbn [step queue_step].
  - pose proof (count_le_usable rb Hwf) as Hle.
    rewrite length_contents.
    destruct (Nat.ltb_spec (count rb) (usable rb)) as [Hroom | Hfull].
    + destruct (rbuf_put_room rb b Hwf Hroom) as (Hr & Hwf1 & Hcap & Hcont).
      destruct (rbuf_put rb b) as [r rb1]. cbn [fst snd] in *. subst r. auto.
    + rewrite rbuf_put_full by (assumption || lia). cbn [fst snd]. auto.
  - destruct (contents rb) as [| b q] eqn:Hcont.
    + rewrite rbuf_get_empty by (now apply rbuf_empty_contents).
      cbn [fst snd]. auto.
    + destruct (rbuf_get_head rb b q Hwf Hcont) as (Hr & Hwf1 & Hcap & _ & Hq).
      destruct (rbuf_get rb) as [r rb1]. cbn [fst snd] in *. subst r. auto.
Qed.

(** A run of calls on the ring buffer answers, and leaves stored, what the
    same run on the queue of its stored bytes does. *)
Lemma run_queue_run ops :
  ∀ rb, wf rb →
    fst (run ops rb) = fst (queue_run (usable rb) ops (contents rb)) ∧
    contents (snd (run ops rb))
    = snd (queue_run (usable rb) ops (contents rb)).
Proof.
  induction ops as [| o ops IH]; intros rb Hwf; [cbn; auto |].
  cbn [run queue_run].
  destruct (step_queue o rb Hwf) as (Hwf1 & Hcap & Hr & Hq).
  destruct (step o rb) as [r rb1]. cbn [fst snd] in *.
  destruct (queue_step (usable rb) o (contents rb)) as [r' q1].
  cbn [fst snd] in *. subst r' q1.
  destruct (IH rb1 Hwf1) as (Hrs & Hq2).
  replace (usable rb1) with (usable rb) in Hrs, Hq2
    by (unfold usable; now rewrite Hcap).
  destruct (run ops rb1) as [rs rb2].
  destruct (queue_run (usable rb) ops (contents rb1)) as [rs' q2].
  cbn [fst snd] in *. now subst.
Qed.

(** *** The claim *)

(** C3 (against the ring buffer as the spec describes it).  A buffer fresh
    from [rbuf_ini] is empty.  After any run of [rbuf_put] and [rbuf_get]
    calls on it, the bytes delivered by [rbuf_get], followed by the bytes
    still stored, are exactly the bytes [rbuf_put] accepted, in the order they
    were put: a byte answered with Full is the only kind that is lost.  When
    the run puts at most U bytes, every one of them is accepted.  The buffer
    is empty exactly when every accepted byte has been delivered, which is
    when nothing is stored.  It never holds more than U bytes.

    Call by call, the run answers as the queue of the spec's words does, and
    stores what that queue holds.  So, after any run: the next [rbuf_put] is
    answered Full exactly when U bytes are stored, and then changes nothing;
    otherwise it is accepted and its byte becomes the newest stored byte;
    the next [rbuf_get] returns the oldest stored byte, nothing only when no
    byte is stored, and removes what it returns. *)
Theorem rbuf_fifo c rb0 ops :
  rbuf_ini c = Some rb0 →
  rbuf_empty rb0 = true ∧
  delivered (fst (run ops rb0)) ++ contents (snd (run ops rb0))
    = accepted ops (fst (run ops rb0)) ∧
  (length (offered ops) ≤ usable rb0 →
   accepted ops (fst (run ops rb0)) = offered ops) ∧
  (rbuf_empty (snd (run ops rb0)) = true ↔
   delivered (fst (run ops rb0)) = accepted ops (fst (run ops rb0))) ∧
  length (contents (snd (run ops rb0))) ≤ usable rb0 ∧
  fst (run ops rb0) = fst (queue_run (usable rb0) ops []) ∧
  contents (snd (run ops rb0)) = snd (queue_run (usable rb0) ops []) ∧
  (rbuf_empty (snd (run ops rb0)) = true ↔
   contents (snd (run ops rb0)) = []) ∧
  (∀ b, fst (rbuf_put (snd (run ops rb0)) b) = Full ↔
        length (contents (snd (run ops rb0))) = usable rb0) ∧
  (∀ b, fst (rbuf_put (snd (run ops rb0)) b) = Full →
        snd (rbuf_put (snd (run ops rb0)) b) = snd (run ops rb0)) ∧
  (∀ b, fst (rbuf_put (snd (run ops rb0)) b) = PutOk →
        contents (snd (rbuf_put (snd (run ops rb0)) b))
        = contents (snd (run ops rb0)) ++ [b]) ∧
  fst (rbuf_get (snd (run ops rb0))) = head (contents (snd (run ops rb0))) ∧
  contents (snd (rbuf_get (snd (run ops rb0))))
  = tail (contents (snd (run ops rb0))).
Proof.
  intros (Hwf & Hnil & Hcap)%rbuf_ini_wf.
  destruct (run_queue ops rb0 Hwf) as (Hwf' & Hq & Hall).
  destruct (run_queue_run ops rb0 Hwf) as (Hsim & Hsimq).
  rewrite Hnil in Hq, Hsim, Hsimq. cbn [app] in Hq.
  assert (Husable : usable (snd (run ops rb0)) = usable rb0).
  { unfold usable. now rewrite run_capacity. }
  pose proof (count_le_usable _ Hwf') as Hle.
  rewrite Husable in Hle.
  split; [now apply rbuf_empty_contents |].
  split; [now rewrite Hq |].
  split.
  { intros Hfit. apply Hall.
    rewrite <- length_contents, Hnil. cbn [length]. lia. }
  split.
  { rewrite rbuf_empty_contents by assumption. rewrite Hq. split.
    - intros ->. now rewrite app_nil_r.
    - intros Heq. apply (app_inv_head (delivered (fst (run ops rb0)))).
      now rewrite app_nil_r. }
  split; [now rewrite length_contents |].
  split; [exact Hsim |]. split; [exact Hsimq |].
  split; [now apply rbuf_empty_contents |].
  set (rb := snd (run ops rb0)) in *.
  split; [| split; [| split]].
  - intros b. rewrite length_contents.
    destruct (decide (count rb < usable rb0)) as [Hroom | Hfull].
    + destruct (rbuf_put_room rb b Hwf') as (Hr & _); [now rewrite Husable |].
      rewrite Hr. split; [discriminate | lia].
    + rewrite rbuf_put_full by (assumption || lia). cbn [fst].
      split; [lia | reflexivity].
  - intros b Hfull.
    destruct (decide (count rb < usable rb0)) as [Hroom | Hno].
    + destruct (rbuf_put_room rb b Hwf') as (Hr & _); [now rewrite Husable |].
      congruence.
    + now rewrite rbuf_put_full by (assumption || lia).
  - intros b Hok.
    destruct (decide (count rb < usable rb0)) as [Hroom | Hno].
    + destruct (rbuf_put_room rb b Hwf') as (_ & _ & _ & Hc);
        [now rewrite Husable | exact Hc].
    + rewrite rbuf_put_full in Hok by (assumption || lia). discriminate.
  - destruct (contents rb) as [| b q] eqn:Hcont.
    + rewrite rbuf_get_empty by (now apply rbuf_empty_contents).
      cbn [fst snd head tail]. auto.
    + destruct (rbuf_get_head rb b q Hwf' Hcont) as (Hr & _ & _ & _ & Hq').
      cbn [head tail]. auto.
Qed.

Lemma rbuf_fifo_witness :
  let rb0 := mkRingBuffer (replicate 4 x00) 0 0 in
  let ops := [Put x41; Put x42; Get; Put x43; Get; Get; Get] in
  rbuf_ini 4 = Some rb0 ∧
  delivered (fst (run ops rb0)) = [x41; x42; x43] ∧
  accepted ops (fst (run ops rb0)) = offered ops ∧
  rbuf_empty (snd (run ops rb0)) = true.
Proof.
  intros rb0 ops.
  destruct (rbuf_fifo 4 rb0 ops eq_refl) as (_ & _ & Hall & Hempty & _).
  split; [reflexivity |]. split; [reflexivity |].
  split; [apply Hall; cbn; lia | apply Hempty; reflexivity].
Defined.

(** The spec's overflow scenario on a buffer of usable capacity 4: the fifth
    put is answered Full and the four bytes before it come back in order. *)
Example rbuf_overflow_drops_fifth :
  fst (run [Put x41; Put x42; Put x43; Put x44; Put x45; Get; Get; Get; Get; Get]
           (mkRingBuffer (replicate 5 x00) 0 0))
  = [PutReply PutOk; PutReply PutOk; PutReply PutOk; PutReply PutOk;
     PutReply Full;
     GetReply (Some x41); GetReply (Some x42); GetReply (Some x43);
     GetReply (Some x44); GetReply None].
Proof. reflexivity. Qed.

End RbufFacts.

(** ** Properties of uart2.cpp *)

Module Uart2Facts.
Import Rbuf Uart2 RbufFacts.

Lemma int_of_get_nonneg b : (0 ≤ int_of_get (Some b))%Z.
Proof. cbn. lia. Qed.

(** One wait loop that finds the transmitter ready at its read number
    [k + n], and not before. *)
Lemma uart2_putchar_ready UDRE2 c UCSR2A n :
  ∀ fuel k,
    (∀ j, j < n → uart2_txready UDRE2 (UCSR2A (k + j)) = 0%Z) →
    uart2_txready UDRE2 (UCSR2A (k + n)) ≠ 0%Z →
    n < fuel →
    uart2_putchar UDRE2 fuel c UCSR2A k
      = (Some 0%Z,
         ((λ i, ReadUCSR2A (UCSR2A i)) <$> seq k (S n)) ++ [WriteUDR2 c]).
Proof.
  induction n as [| n IH]; intros fuel k Hbusy Hready Hfuel;
    (destruct fuel as [| fuel]; [lia |]); cbn [uart2_putchar]; cbv zeta.
  - rewrite Nat.add_0_r in Hready.
    destruct (Z.eqb_spec (uart2_txready UDRE2 (UCSR2A k)) 0); [contradiction |].
    reflexivity.
  - pose proof (Hbusy 0 ltac:(lia)) as H0. rewrite Nat.add_0_r in H0.
    rewrite H0. cbn [Z.eqb].
    rewrite (IH fuel (S k)).
    + reflexivity.
    + intros j Hj. replace (S k + j) with (k + S j) by lia. apply Hbusy. lia.
    + replace (S k + n) with (k + S n) by lia. exact Hready.
    + lia.
Qed.

(** A wait loop on a transmitter that is never ready only reads. *)
Lemma uart2_putchar_stalled UDRE2 c UCSR2A :
  ∀ fuel k,
    (∀ j, uart2_txready UDRE2 (UCSR2A (k + j)) = 0%Z) →
    uart2_putchar UDRE2 fuel c UCSR2A k
      = (None, (λ i, ReadUCSR2A (UCSR2A i)) <$> seq k fuel).
Proof.
  induction fuel as [| fuel IH]; intros k Hbusy; [reflexivity |].
  cbn [uart2_putchar]; cbv zeta.
  pose proof (Hbusy 0) as H0. rewrite Nat.add_0_r in H0.
  rewrite H0. cbn [Z.eqb]. rewrite IH; [reflexivity |].
  intros j. replace (S k + j) with (k + S j) by lia. apply Hbusy.
Qed.

(** Whatever the transmitter does and however long the loop has run, a write
    of the data register is the last access made, writes the byte of the
    call, ends the call, and follows a read that showed the ready bit. *)
Lemma uart2_putchar_write UDRE2 c UCSR2A :
  ∀ fuel k i c',
    snd (uart2_putchar UDRE2 fuel c UCSR2A k) !! i = Some (WriteUDR2 c') →
    c' = c ∧
    fst (uart2_putchar UDRE2 fuel c UCSR2A k) = Some 0%Z ∧
    length (snd (uart2_putchar UDRE2 fuel c UCSR2A k)) = S i ∧
    ∃ j v, i = S j ∧
           snd (uart2_putchar UDRE2 fuel c UCSR2A k) !! j = Some (ReadUCSR2A v) ∧
           uart2_txready UDRE2 v ≠ 0%Z.
Proof.
  induction fuel as [| fuel IH]; intros k i c'; [cbn; discriminate |].
  cbn [uart2_putchar]; cbv zeta.
  destruct (Z.eqb_spec (uart2_txready UDRE2 (UCSR2A k)) 0) as [Hbusy | Hready].
  - specialize (IH (S k)).
    destruct (uart2_putchar UDRE2 fuel c UCSR2A (S k)) as [r tr].
    cbn [fst snd] in *. destruct i as [| i]; [cbn; discriminate |].
    cbn [lookup list_lookup]. intros Hw.
    destruct (IH i c' Hw) as (Hc & Hr & Hlen & j & v & -> & Hj & Hv).
    split; [assumption |]. split; [assumption |].
    split; [cbn [length]; now rewrite Hlen |].
    exists (S j), v. auto.
  - cbn [fst snd]. destruct i as [| [| i]]; cbn; try discriminate.
    intros [= <-]. repeat split.
    exists 0, (UCSR2A k). auto.
Qed.

(** *** The claims *)

(** C4 (the ring buffer as the spec describes it).  The receive interrupt
    makes one [rbuf_put] of the received byte.  When the put is answered
    Full, which happens exactly when the buffer holds U bytes, the handler
    prints its message and the buffer stays as it was; when the put succeeds,
    the byte becomes the newest stored byte and nothing is printed. *)
Theorem ISR_USART2_RX_one_put udr2 st :
  wf (uart2_ibuf st) →
  uart2_ibuf (ISR_USART2_RX_vect udr2 st)
    = snd (rbuf_put (uart2_ibuf st) udr2) ∧
  (fst (rbuf_put (uart2_ibuf st) udr2) = Full ↔
   count (uart2_ibuf st) = usable (uart2_ibuf st)) ∧
  (fst (rbuf_put (uart2_ibuf st) udr2) = Full →
   ISR_USART2_RX_vect udr2 st
     = {| uart2_ibuf := uart2_ibuf st;
          stdout_lines := stdout_lines st ++ [rx_full_message] |}) ∧
  (fst (rbuf_put (uart2_ibuf st) udr2) = PutOk →
   contents (uart2_ibuf (ISR_USART2_RX_vect udr2 st))
     = contents (uart2_ibuf st) ++ [udr2] ∧
   stdout_lines (ISR_USART2_RX_vect udr2 st) = stdout_lines st).
Proof.
  intros Hwf. unfold ISR_USART2_RX_vect.
  pose proof (count_le_usable _ Hwf) as Hle.
  destruct (decide (count (uart2_ibuf st) < usable (uart2_ibuf st)))
    as [Hroom | Hfull].
  - destruct (rbuf_put_room _ udr2 Hwf Hroom) as (Hr & _ & _ & Hcont).
    destruct (rbuf_put (uart2_ibuf st) udr2) as [r rb]. cbn [fst snd] in *.
    subst r. cbn. split; [reflexivity |].
    split; [split; [discriminate | lia] |].
    split; [discriminate | auto].
  - rewrite rbuf_put_full by (assumption || lia). cbn.
    split; [reflexivity |]. split; [split; [lia | reflexivity] |].
    split; [reflexivity | discriminate].
Qed.

Lemma ISR_USART2_RX_one_put_witness :
  let full := mkState (mkRingBuffer [x41; x00] 1 0) [] in
  let room := mkState (mkRingBuffer [x00; x00] 0 0) [] in
  ISR_USART2_RX_vect x42 full
    = mkState (mkRingBuffer [x41; x00] 1 0) [rx_full_message] ∧
  contents (uart2_ibuf (ISR_USART2_RX_vect x42 room)) = [x42] ∧
  stdout_lines (ISR_USART2_RX_vect x42 room) = [].
Proof.
  intros full room.
  assert (Hfull : wf (uart2_ibuf full)) by (cbv; lia).
  assert (Hroom : wf (uart2_ibuf room)) by (cbv; lia).
  destruct (ISR_USART2_RX_one_put x42 full Hfull) as (_ & _ & Hf & _).
  destruct (ISR_USART2_RX_one_put x42 room Hroom) as (_ & _ & _ & Hr).
  split; [apply Hf; reflexivity | apply Hr; reflexivity].
Defined.

(** C5.  [uart2_putchar] reads the status register until the ready bit
    shows: if that happens first at read number [n], the call returns 0 after
    [n + 1] reads and one write of its byte, whenever it is given more than
    [n] rounds; if it never happens, the call has not returned after any
    number of rounds and has only read.  In every run, finished or not, a
    write of the data register comes directly after a read that showed the
    ready bit, and is the last access of the call. *)
Theorem uart2_putchar_waits_for_txready UDRE2 c UCSR2A :
  (∀ n fuel,
      (∀ j, j < n → uart2_txready UDRE2 (UCSR2A j) = 0%Z) →
      uart2_txready UDRE2 (UCSR2A n) ≠ 0%Z →
      n < fuel →
      uart2_putchar UDRE2 fuel c UCSR2A 0
        = (Some 0%Z,
           ((λ i, ReadUCSR2A (UCSR2A i)) <$> seq 0 (S n)) ++ [WriteUDR2 c])) ∧
  ((∀ j, uart2_txready UDRE2 (UCSR2A j) = 0%Z) →
   ∀ fuel,
     uart2_putchar UDRE2 fuel c UCSR2A 0
       = (None, (λ i, ReadUCSR2A (UCSR2A i)) <$> seq 0 fuel)) ∧
  (∀ fuel i c',
      snd (uart2_putchar UDRE2 fuel c UCSR2A 0) !! i = Some (WriteUDR2 c') →
      c' = c ∧
      length (snd (uart2_putchar UDRE2 fuel c UCSR2A 0)) = S i ∧
      ∃ j v, i = S j ∧
             snd (uart2_putchar UDRE2 fuel c UCSR2A 0) !! j
               = Some (ReadUCSR2A v) ∧
             uart2_txready UDRE2 v ≠ 0%Z).
Proof.
  split; [| split].
  - intros n fuel Hbusy Hready Hfuel.
    now apply uart2_putchar_ready.
  - intros Hbusy fuel. now apply uart2_putchar_stalled.
  - intros fuel i c' Hw.
    destruct (uart2_putchar_write UDRE2 c UCSR2A fuel 0 i c' Hw)
      as (Hc & _ & Hlen & Hprev).
    auto.
Qed.

Lemma uart2_putchar_waits_for_txready_witness :
  let UCSR2A := λ k : nat, if (k <? 2)%nat then 2%Z else 34%Z in
  uart2_putchar 5 7 x41 UCSR2A 0
    = (Some 0%Z, [ReadUCSR2A 2; ReadUCSR2A 2; ReadUCSR2A 34; WriteUDR2 x41]) ∧
  uart2_putchar 5 7 x41 (λ _, 2%Z) 0
    = (None, [ReadUCSR2A 2; ReadUCSR2A 2; ReadUCSR2A 2; ReadUCSR2A 2;
              ReadUCSR2A 2; ReadUCSR2A 2; ReadUCSR2A 2]).
Proof.
  intros UCSR2A. split.
  - apply (proj1 (uart2_putchar_waits_for_txready 5 x41 UCSR2A) 2 7).
    + intros j Hj. destruct j as [| [| j]]; [reflexivity | reflexivity | lia].
    + discriminate.
    + lia.
  - apply (proj1 (proj2 (uart2_putchar_waits_for_txready 5 x41 (λ _, 2%Z)))).
    reflexivity.
Defined.

(** C6 (the ring buffer as the spec describes it).  [uart2_getchar] is one
    pass without a loop.  It returns -1 if and only if the receive buffer is
    empty, and then changes nothing; otherwise it returns the oldest stored
    byte, as a value in 0..255, by one [rbuf_get], which removes that byte
    and advances the read position. *)
Theorem uart2_getchar_oldest_or_nothing st :
  wf (uart2_ibuf st) →
  (fst (uart2_getchar st) = (-1)%Z ↔ rbuf_empty (uart2_ibuf st) = true) ∧
  (rbuf_empty (uart2_ibuf st) = true → uart2_getchar st = ((-1)%Z, st)) ∧
  (∀ b q,
      contents (uart2_ibuf st) = b :: q →
      fst (uart2_getchar st) = Z.of_N (Byte.to_N b) ∧
      uart2_ibuf (snd (uart2_getchar st)) = snd (rbuf_get (uart2_ibuf st)) ∧
      contents (uart2_ibuf (snd (uart2_getchar st))) = q ∧
      rpos (uart2_ibuf (snd (uart2_getchar st)))
        = advance (uart2_ibuf st) (rpos (uart2_ibuf st)) ∧
      stdout_lines (snd (uart2_getchar st)) = stdout_lines st).
Proof.
  intros Hwf.
  assert (Hhead : ∀ b q,
             contents (uart2_ibuf st) = b :: q →
             rbuf_empty (uart2_ibuf st) = false ∧
             fst (uart2_getchar st) = Z.of_N (Byte.to_N b) ∧
             uart2_ibuf (snd (uart2_getchar st))
               = snd (rbuf_get (uart2_ibuf st)) ∧
             contents (uart2_ibuf (snd (uart2_getchar st))) = q ∧
             rpos (uart2_ibuf (snd (uart2_getchar st)))
               = advance (uart2_ibuf st) (rpos (uart2_ibuf st)) ∧
             stdout_lines (snd (uart2_getchar st)) = stdout_lines st).
  { intros b q Hcont.
    assert (Hne : rbuf_empty (uart2_ibuf st) = false).
    { destruct (rbuf_empty (uart2_ibuf st)) eqn:E; [| reflexivity].
      apply rbuf_empty_contents in E; [congruence | assumption]. }
    destruct (rbuf_get_head _ b q Hwf Hcont) as (Hr & _ & _ & Hpos & Hq).
    unfold uart2_getchar. rewrite Hne.
    destruct (rbuf_get (uart2_ibuf st)) as [r rb]. cbn [fst snd] in *.
    subst r. cbn [fst snd uart2_ibuf stdout_lines int_of_get].
    repeat split; assumption. }
  split; [| split].
  - destruct (contents (uart2_ibuf st)) as [| b q] eqn:Hcont.
    + apply rbuf_empty_contents in Hcont; [| assumption].
      unfold uart2_getchar. rewrite Hcont. cbn. tauto.
    + destruct (Hhead b q eq_refl) as (Hne & Hval & _).
      rewrite Hne, Hval. split; [lia | discriminate].
  - intros Hempty. unfold uart2_getchar. now rewrite Hempty.
  - intros b q Hcont. destruct (Hhead b q Hcont) as (_ & H). exact H.
Qed.

Lemma uart2_getchar_oldest_or_nothing_witness :
  let st := mkState (mkRingBuffer [x41; x42; x00; x00] 2 0) [] in
  fst (uart2_getchar st) = 65%Z ∧
  contents (uart2_ibuf (snd (uart2_getchar st))) = [x42] ∧
  uart2_getchar (mkState (mkRingBuffer [x41; x42; x00; x00] 2 2) [])
    = ((-1)%Z, mkState (mkRingBuffer [x41; x42; x00; x00] 2 2) []).
Proof.
  intros st.
  assert (Hwf : wf (uart2_ibuf st)) by (cbv; lia).
  destruct (uart2_getchar_oldest_or_nothing st Hwf) as (_ & _ & Hhead).
  destruct (Hhead x41 [x42] eq_refl) as (Hval & _ & Hq & _).
  split; [exact Hval |]. split; [exact Hq |].
  apply (uart2_getchar_oldest_or_nothing
           (mkState (mkRingBuffer [x41; x42; x00; x00] 2 2) [])).
  - cbv; lia.
  - reflexivity.
Defined.

(** The spec's end-to-end scenario: three bytes arrive, three reads return
    them in order, a fourth read returns nothing. *)
Example uart2_three_arrivals :
  let st0 := mkState (mkRingBuffer (replicate 5 x00) 0 0) [] in
  let st3 := ISR_USART2_RX_vect x43
               (ISR_USART2_RX_vect x42 (ISR_USART2_RX_vect x41 st0)) in
  let '(r1, st4) := uart2_getchar st3 in
  let '(r2, st5) := uart2_getchar st4 in
  let '(r3, st6) := uart2_getchar st5 in
  let '(r4, st7) := uart2_getchar st6 in
  [r1; r2; r3; r4] = [65; 66; 67; -1]%Z ∧ stdout_lines st7 = [].
Proof. split; reflexivity. Qed.

(** The buffer [uart2_init] sets up has capacity 16 and holds up to 15 bytes. *)
Example uart2_init_ibuf_capacity :
  (λ rb, (capacity rb, usable rb)) <$> uart2_init_ibuf = Some (16, 15).
Proof. reflexivity. Qed.

(** *** Further properties of uart2.cpp *)

Lemma testbit_1 k : Z.testbit 1 k = (k =? 0)%Z.
Proof. destruct k as [| q | q]; try reflexivity; now destruct q. Qed.

Lemma testbit_bit b i :
  (0 ≤ i)%Z → Z.testbit (Z.shiftl 1 b) i = (i =? b)%Z.
Proof.
  intros Hi. rewrite Z.shiftl_spec, testbit_1 by assumption.
  destruct (Z.eqb_spec (i - b) 0), (Z.eqb_spec i b); (reflexivity || lia).
Qed.

Lemma testbit_uint8 x i : Z.testbit (uint8 x) i = (i <? 8)%Z && Z.testbit x i.
Proof. unfold uint8. change 256%Z with (2 ^ 8)%Z. now apply Z.testbit_mod_pow2. Qed.

(** The macro [uart2_txready] is non-zero exactly when bit UDRE2 of the
    status register is set. *)
Theorem uart2_txready_is_bit_UDRE2 UDRE2 ucsr2a :
  (0 ≤ UDRE2)%Z →
  uart2_txready UDRE2 ucsr2a ≠ 0%Z ↔ Z.testbit ucsr2a UDRE2 = true.
Proof.
  intros Hb. unfold uart2_txready. split.
  - intros Hne. destruct (Z.testbit ucsr2a UDRE2) eqn:E; [reflexivity |].
    exfalso. apply Hne. apply Z.bits_inj'. intros i Hi.
    rewrite Z.land_spec, testbit_bit, Z.bits_0 by assumption.
    destruct (Z.eqb_spec i UDRE2) as [-> | _];
      [now rewrite E | apply andb_false_r].
  - intros Hset Hzero.
    assert (H : Z.testbit (Z.land ucsr2a (Z.shiftl 1 UDRE2)) UDRE2 = true).
    { now rewrite Z.land_spec, testbit_bit, Hset, Z.eqb_refl. }
    rewrite Hzero, Z.bits_0 in H. discriminate.
Qed.

Lemma uart2_txready_is_bit_UDRE2_witness :
  uart2_txready 5 34 ≠ 0%Z ↔ Z.testbit 34 5 = true.
Proof. apply (uart2_txready_is_bit_UDRE2 5 34). lia. Defined.

Lemma uart2_putchar_returned UDRE2 c UCSR2A :
  ∀ fuel k r,
    fst (uart2_putchar UDRE2 fuel c UCSR2A k) = Some r →
    r = 0%Z ∧
    ∃ n, n < fuel ∧
         (∀ j, j < n → uart2_txready UDRE2 (UCSR2A (k + j)) = 0%Z) ∧
         uart2_txready UDRE2 (UCSR2A (k + n)) ≠ 0%Z.
Proof.
  induction fuel as [| fuel IH]; intros k r; [cbn; discriminate |].
  cbn [uart2_putchar]; cbv zeta.
  destruct (Z.eqb_spec (uart2_txready UDRE2 (UCSR2A k)) 0) as [Hbusy | Hready].
  - specialize (IH (S k) r).
    destruct (uart2_putchar UDRE2 fuel c UCSR2A (S k)) as [r' tr].
    cbn [fst] in *. intros Hr.
    destruct (IH Hr) as (-> & n & Hn & Hbefore & Hat).
    split; [reflexivity |]. exists (S n). split; [lia |]. split.
    + intros [| j] Hj; [now rewrite Nat.add_0_r |].
      replace (k + S j) with (S k + j) by lia. apply Hbefore. lia.
    + now replace (k + S n) with (S k + n) by lia.
  - cbn [fst]. intros [= <-]. split; [reflexivity |].
    exists 0. split; [lia |]. split; [intros j Hj; lia |].
    now rewrite Nat.add_0_r.
Qed.

(** Whenever [uart2_putchar] returns, it returns 0, it has seen the
    transmitter not ready at every read but the last, and it has written the
    data register once, with its byte, as its last access.  Letting the loop
    run longer does not change the outcome. *)
Theorem uart2_putchar_returns_after_one_write UDRE2 c UCSR2A fuel r :
  fst (uart2_putchar UDRE2 fuel c UCSR2A 0) = Some r →
  r = 0%Z ∧
  (∃ n, n < fuel ∧
        (∀ j, j < n → uart2_txready UDRE2 (UCSR2A j) = 0%Z) ∧
        uart2_txready UDRE2 (UCSR2A n) ≠ 0%Z ∧
        snd (uart2_putchar UDRE2 fuel c UCSR2A 0)
        = ((λ i, ReadUCSR2A (UCSR2A i)) <$> seq 0 (S n)) ++ [WriteUDR2 c]) ∧
  (∀ fuel', fuel ≤ fuel' →
            uart2_putchar UDRE2 fuel' c UCSR2A 0
            = uart2_putchar UDRE2 fuel c UCSR2A 0).
Proof.
  intros Hr.
  destruct (uart2_putchar_returned UDRE2 c UCSR2A fuel 0 r Hr)
    as (-> & n & Hn & Hbefore & Hat).
  cbn [Nat.add] in Hbefore, Hat.
  pose proof (λ f, uart2_putchar_ready UDRE2 c UCSR2A n f 0 Hbefore Hat) as Hrun.
  split; [reflexivity |]. split.
  - exists n. rewrite (Hrun fuel Hn). auto.
  - intros fuel' Hle. rewrite (Hrun fuel Hn), (Hrun fuel') by lia. reflexivity.
Qed.

Lemma uart2_putchar_returns_after_one_write_witness :
  let UCSR2A := λ k : nat, if (k <? 2)%nat then 2%Z else 34%Z in
  uart2_putchar 5 100 x41 UCSR2A 0 = uart2_putchar 5 3 x41 UCSR2A 0.
Proof.
  intros UCSR2A.
  apply (proj2 (proj2 (uart2_putchar_returns_after_one_write 5 x41 UCSR2A 3 0
                         eq_refl))).
  lia.
Defined.

Lemma ISR_USART2_RX_room udr2 st :
  wf (uart2_ibuf st) → count (uart2_ibuf st) < usable (uart2_ibuf st) →
  wf (uart2_ibuf (ISR_USART2_RX_vect udr2 st)) ∧
  capacity (uart2_ibuf (ISR_USART2_RX_vect udr2 st)) = capacity (uart2_ibuf st) ∧
  contents (uart2_ibuf (ISR_USART2_RX_vect udr2 st))
  = contents (uart2_ibuf st) ++ [udr2] ∧
  stdout_lines (ISR_USART2_RX_vect udr2 st) = stdout_lines st.
Proof.
  intros Hwf Hroom. unfold ISR_USART2_RX_vect.
  destruct (rbuf_put_room _ udr2 Hwf Hroom) as (Hr & Hwf' & Hcap & Hcont).
  destruct (rbuf_put (uart2_ibuf st) udr2) as [r rb]. cbn [fst snd] in *.
  subst r. cbn. auto.
Qed.

Lemma ISR_USART2_RX_full udr2 st :
  wf (uart2_ibuf st) → count (uart2_ibuf st) = usable (uart2_ibuf st) →
  ISR_USART2_RX_vect udr2 st
  = {| uart2_ibuf := uart2_ibuf st;
       stdout_lines := stdout_lines st ++ [rx_full_message] |}.
Proof.
  intros Hwf Hfull. unfold ISR_USART2_RX_vect.
  now rewrite rbuf_put_full.
Qed.

Lemma receive_spec bs :
  ∀ st, wf (uart2_ibuf st) →
    let room := usable (uart2_ibuf st) - count (uart2_ibuf st) in
    wf (uart2_ibuf (receive bs st)) ∧
    capacity (uart2_ibuf (receive bs st)) = capacity (uart2_ibuf st) ∧
    contents (uart2_ibuf (receive bs st))
    = contents (uart2_ibuf st) ++ take room bs ∧
    stdout_lines (receive bs st)
    = stdout_lines st ++ replicate (length bs - room) rx_full_message.
Proof.
  induction bs as [| b bs IH]; intros st Hwf room.
  - cbn [receive]. rewrite take_nil, app_nil_r. cbn. rewrite app_nil_r. auto.
  - cbn [receive]. pose proof (count_le_usable _ Hwf) as Hle.
    destruct (decide (count (uart2_ibuf st) < usable (uart2_ibuf st)))
      as [Hroom | Hfull].
    + destruct (ISR_USART2_RX_room b st Hwf Hroom) as (Hwf1 & Hcap & Hcont & Hout).
      destruct (IH _ Hwf1) as (Hwf2 & Hcap2 & Hcont2 & Hout2).
      assert (Hroom1 : usable (uart2_ibuf (ISR_USART2_RX_vect b st))
                       - count (uart2_ibuf (ISR_USART2_RX_vect b st))
                       = room - 1).
      { rewrite <- !length_contents, Hcont, length_app. unfold usable.
        rewrite Hcap. subst room. rewrite <- length_contents. unfold usable.
        cbn [length]. lia. }
      rewrite Hroom1 in Hcont2, Hout2.
      assert (Hpos : room = S (room - 1)) by (subst room; lia).
      split; [assumption |]. split; [congruence |]. split.
      * rewrite Hcont2, Hcont, <- app_assoc, Hpos. cbn [app take].
        do 3 f_equal. lia.
      * rewrite Hout2, Hout. f_equal. f_equal. cbn [length]. lia.
    + assert (Hfull' : count (uart2_ibuf st) = usable (uart2_ibuf st)) by lia.
      rewrite (ISR_USART2_RX_full b st Hwf Hfull').
      specialize (IH {| uart2_ibuf := uart2_ibuf st;
                        stdout_lines := stdout_lines st ++ [rx_full_message] |}
                    Hwf).
      cbn [uart2_ibuf stdout_lines] in IH.
      destruct IH as (Hwf2 & Hcap2 & Hcont2 & Hout2).
      assert (Hzero : room = 0) by (subst room; lia).
      rewrite Hzero. replace (usable _ - count _) with 0 in Hcont2, Hout2 by lia.
      split; [assumption |]. split; [assumption |]. split.
      * rewrite Hcont2. now rewrite !take_0.
      * rewrite Hout2, <- app_assoc. f_equal. cbn [length].
        now rewrite !Nat.sub_0_r.
Qed.

Lemma read_n_spec n :
  ∀ st, wf (uart2_ibuf st) →
    wf (uart2_ibuf (snd (read_n n st))) ∧
    fst (read_n n st)
    = ((λ b, Z.of_N (Byte.to_N b)) <$> take n (contents (uart2_ibuf st)))
      ++ replicate (n - length (contents (uart2_ibuf st))) (-1)%Z ∧
    contents (uart2_ibuf (snd (read_n n st)))
    = drop n (contents (uart2_ibuf st)) ∧
    stdout_lines (snd (read_n n st)) = stdout_lines st.
Proof.
  induction n as [| n IH]; intros st Hwf.
  - cbn. auto.
  - cbn [read_n].
    destruct (contents (uart2_ibuf st)) as [| b q] eqn:Hcont.
    + apply rbuf_empty_contents in Hcont as Hempty; [| assumption].
      assert (Hg : uart2_getchar st = ((-1)%Z, st)).
      { unfold uart2_getchar. now rewrite Hempty. }
      rewrite Hg.
      destruct (IH st Hwf) as (Hwf' & Hres & Hq & Hout).
      rewrite Hcont in Hres, Hq.
      destruct (read_n n st) as [rs st2]. cbn [fst snd] in *.
      rewrite take_nil, drop_nil in *. cbn [fmap list_fmap app length] in *.
      rewrite Nat.sub_0_r in *. subst rs. auto.
    + assert (Hne : rbuf_empty (uart2_ibuf st) = false).
      { destruct (rbuf_empty (uart2_ibuf st)) eqn:E; [| reflexivity].
        apply rbuf_empty_contents in E; [congruence | assumption]. }
      destruct (rbuf_get_head _ b q Hwf Hcont) as (Hr & Hwf1 & _ & _ & Hq1).
      assert (Hg : uart2_getchar st
                   = (Z.of_N (Byte.to_N b),
                      {| uart2_ibuf := snd (rbuf_get (uart2_ibuf st));
                         stdout_lines := stdout_lines st |})).
      { unfold uart2_getchar. rewrite Hne.
        destruct (rbuf_get (uart2_ibuf st)) as [r rb]. cbn [fst snd] in *.
        now subst r. }
      rewrite Hg.
      specialize (IH {| uart2_ibuf := snd (rbuf_get (uart2_ibuf st));
                        stdout_lines := stdout_lines st |}).
      cbn [uart2_ibuf stdout_lines] in IH.
      destruct (IH Hwf1) as (Hwf' & Hres & Hq & Hout).
      destruct (read_n n _) as [rs st2]. cbn [fst snd] in *.
      rewrite Hq1 in Hres, Hq. subst rs.
      cbn [take drop fmap list_fmap app length Nat.sub]. auto.
Qed.

(** Bytes that arrive with no read in between (the ring buffer as the spec
    describes it): the first ones, as many as there is room for, are stored
    behind the bytes already waiting, in arrival order; each of the others is
    dropped and answered by one line of the Full message; the buffer stays
    well formed. *)
Theorem receive_stores_what_fits bs st :
  wf (uart2_ibuf st) →
  wf (uart2_ibuf (receive bs st)) ∧
  contents (uart2_ibuf (receive bs st))
  = contents (uart2_ibuf st)
    ++ take (usable (uart2_ibuf st) - count (uart2_ibuf st)) bs ∧
  stdout_lines (receive bs st)
  = stdout_lines st
    ++ replicate (length bs - (usable (uart2_ibuf st) - count (uart2_ibuf st)))
         rx_full_message.
Proof.
  intros Hwf. destruct (receive_spec bs st Hwf) as (H1 & _ & H2 & H3). auto.
Qed.

Lemma receive_stores_what_fits_witness :
  let st := mkState (mkRingBuffer [x00; x00; x00; x00] 1 0) [] in
  contents (uart2_ibuf (receive [x42; x43; x44; x45] st)) = [x00; x42; x43] ∧
  stdout_lines (receive [x42; x43; x44; x45] st)
  = [rx_full_message; rx_full_message].
Proof.
  intros st.
  assert (Hwf : wf (uart2_ibuf st)) by (cbv; lia).
  destruct (receive_stores_what_fits [x42; x43; x44; x45] st Hwf)
    as (_ & Hc & Ho).
  split; [exact Hc | exact Ho].
Defined.

(** [n] reads in a row (the ring buffer as the spec describes it) return the
    waiting bytes from the oldest on, as values 0..255, then -1 for every
    read that finds the buffer empty; they remove what they return, print
    nothing, and keep the buffer well formed. *)
Theorem read_n_returns_oldest_first n st :
  wf (uart2_ibuf st) →
  wf (uart2_ibuf (snd (read_n n st))) ∧
  fst (read_n n st)
  = ((λ b, Z.of_N (Byte.to_N b)) <$> take n (contents (uart2_ibuf st)))
    ++ replicate (n - length (contents (uart2_ibuf st))) (-1)%Z ∧
  contents (uart2_ibuf (snd (read_n n st)))
  = drop n (contents (uart2_ibuf st)) ∧
  stdout_lines (snd (read_n n st)) = stdout_lines st.
Proof. apply read_n_spec. Qed.

Lemma read_n_returns_oldest_first_witness :
  let st := mkState (mkRingBuffer [x41; x42; x43; x00] 3 1) [] in
  fst (read_n 4 st) = [66; 67; -1; -1]%Z ∧
  contents (uart2_ibuf (snd (read_n 1 st))) = [x43].
Proof.
  intros st.
  assert (Hwf : wf (uart2_ibuf st)) by (cbv; lia).
  split.
  - exact (proj1 (proj2 (read_n_returns_oldest_first 4 st Hwf))).
  - exact (proj1 (proj2 (proj2 (read_n_returns_oldest_first 1 st Hwf)))).
Defined.

(** The channel end to end (the ring buffer as the spec describes it): with
    the buffer as [uart2_init] sets it up, up to 15 bytes that arrive before
    the first read are all returned by [uart2_getchar], in arrival order,
    followed by -1, and nothing is printed; of more than 15 bytes, the first
    15 are returned and one Full line is printed for each of the others. *)
Theorem uart2_channel_in_order rb out bs n :
  uart2_init_ibuf = Some rb →
  length bs ≤ n →
  fst (read_n n (receive bs (mkState rb out)))
  = ((λ b, Z.of_N (Byte.to_N b)) <$> take 15 bs)
    ++ replicate (n - length (take 15 bs)) (-1)%Z ∧
  stdout_lines (snd (read_n n (receive bs (mkState rb out))))
  = out ++ replicate (length bs - 15) rx_full_message ∧
  rbuf_empty (uart2_ibuf (snd (read_n n (receive bs (mkState rb out))))) = true.
Proof.
  intros Hini Hn. unfold uart2_init_ibuf in Hini.
  apply rbuf_ini_wf in Hini as (Hwf & Hnil & Hcap).
  destruct (receive_spec bs (mkState rb out) Hwf) as (Hwf1 & _ & Hc & Ho).
  cbn [uart2_ibuf stdout_lines] in Hc, Ho.
  assert (Hroom : usable rb - count rb = 15).
  { rewrite <- length_contents, Hnil. unfold usable, reserve. rewrite Hcap.
    reflexivity. }
  rewrite Hroom, Hnil in Hc. rewrite Hroom in Ho. cbn [app] in Hc.
  destruct (read_n_spec n _ Hwf1) as (Hwf2 & Hres & Hq & Hout).
  rewrite Hc in Hres, Hq.
  rewrite (take_ge (take 15 bs) n) in Hres by (rewrite length_take; lia).
  split; [exact Hres |]. split; [now rewrite Hout, Ho |].
  apply rbuf_empty_contents; [assumption |].
  rewrite Hq. apply drop_ge. rewrite length_take. lia.
Qed.

Lemma uart2_channel_in_order_witness :
  let rb := mkRingBuffer (replicate 16 x00) 0 0 in
  fst (read_n 4 (receive [x41; x42; x43] (mkState rb [])))
  = [65; 66; 67; -1]%Z.
Proof.
  intros rb.
  apply (proj1 (uart2_channel_in_order rb [] [x41; x42; x43] 4 eq_refl
                  ltac:(cbn; lia))).
Defined.

(** The registers after [uart2_init], bit by bit: UCSR2B has exactly the
    bits RXEN2, TXEN2 and RXCIE2 set, whatever it held before; bit 0 of DDRH
    is cleared, bit 0 of PORTH is set, bit U2X2 of UCSR2A is set, and every
    other bit of these three registers is as before. *)
Theorem uart2_init_register_bits U2X2 RXEN2 TXEN2 RXCIE2 baud_select r i :
  (0 ≤ U2X2 < 8)%Z → (0 ≤ RXEN2 < 8)%Z → (0 ≤ TXEN2 < 8)%Z →
  (0 ≤ RXCIE2 < 8)%Z →
  (0 ≤ i)%Z →
  let r' := uart2_init_registers U2X2 RXEN2 TXEN2 RXCIE2 baud_select r in
  Z.testbit (reg_UCSR2B r') i
  = ((i =? RXEN2) || (i =? TXEN2) || (i =? RXCIE2))%Z ∧
  Z.testbit (reg_DDRH r') i
  = negb (i =? 0)%Z && Z.testbit (uint8 (reg_DDRH r)) i ∧
  Z.testbit (reg_PORTH r') i
  = (i =? 0)%Z || Z.testbit (uint8 (reg_PORTH r)) i ∧
  Z.testbit (reg_UCSR2A r') i
  = (i =? U2X2)%Z || Z.testbit (uint8 (reg_UCSR2A r)) i.
Proof.
  intros HU HR HT HC Hi r'. subst r'. unfold uart2_init_registers.
  cbn [reg_UCSR2B reg_DDRH reg_PORTH reg_UCSR2A].
  rewrite !testbit_uint8, !Z.lor_spec, !testbit_uint8, !Z.lor_spec,
    Z.land_spec, Z.lnot_spec, !testbit_bit, !testbit_1 by assumption.
  destruct (Z.ltb_spec i 8); cbn [andb];
    repeat match goal with
           | |- context [(i =? ?b)%Z] => destruct (Z.eqb_spec i b)
           end;
    repeat split;
    repeat match goal with
           | |- context [Z.testbit ?x ?y] => destruct (Z.testbit x y)
           end;
    try reflexivity; lia.
Qed.

Lemma uart2_init_register_bits_witness :
  let r' := uart2_init_registers 1 4 3 7 16 (mkRegisters 255 0 32 0 0) in
  Z.testbit (reg_UCSR2B r') 7
  = ((7 =? 4) || (7 =? 3) || (7 =? 7))%Z ∧
  Z.testbit (reg_DDRH r') 7
  = negb (7 =? 0)%Z && Z.testbit (uint8 255) 7 ∧
  Z.testbit (reg_PORTH r') 7 = (7 =? 0)%Z || Z.testbit (uint8 0) 7 ∧
  Z.testbit (reg_UCSR2A r') 7 = (7 =? 1)%Z || Z.testbit (uint8 32) 7.
Proof.
  apply (uart2_init_register_bits 1 4 3 7 16 (mkRegisters 255 0 32 0 0) 7);
    lia.
Defined.

(** Running the register writes of [uart2_init] a second time changes
    nothing, and the registers it leaves are 8-bit values. *)
Theorem uart2_init_registers_idempotent U2X2 RXEN2 TXEN2 RXCIE2 baud_select r :
  let init := uart2_init_registers U2X2 RXEN2 TXEN2 RXCIE2 baud_select in
  init (init r) = init r ∧
  (0 ≤ reg_DDRH (init r) < 256)%Z ∧ (0 ≤ reg_PORTH (init r) < 256)%Z ∧
  (0 ≤ reg_UCSR2A (init r) < 256)%Z ∧ (0 ≤ reg_UCSR2B (init r) < 256)%Z ∧
  (0 ≤ reg_UBRR2L (init r) < 256)%Z.
Proof.
  intros init. subst init. unfold uart2_init_registers.
  cbn [reg_UCSR2B reg_DDRH reg_PORTH reg_UCSR2A reg_UBRR2L].
  split.
  - f_equal; apply Z.bits_inj'; intros i Hi;
      rewrite ?testbit_uint8, ?Z.lor_spec, ?Z.land_spec, ?testbit_uint8,
        ?Z.lor_spec, ?Z.land_spec;
      destruct (i <? 8)%Z; cbn [andb];
      repeat match goal with
             | |- context [Z.testbit ?x ?y] => destruct (Z.testbit x y)
             end; reflexivity.
  - unfold uint8. repeat split; apply Z.mod_pos_bound; lia.
Qed.

End Uart2Facts.

(** ** Properties of first_lay_cal.cpp *)

Module FirstLayCalFacts.
Import FirstLayCal.

Lemma enqueue_loop_from_in_table mmu_enabled cmd_sequence n :
  ∀ i, i + n ≤ length cmd_sequence →
    enqueue_loop_from mmu_enabled cmd_sequence i n
    = Some (enquecommand_P
              <$> List.filter (λ p, negb (is_MSG_M702 p) || mmu_enabled)
                    (take n (drop i cmd_sequence))).
Proof.
  induction n as [| n IH]; intros i Hlen; [reflexivity |].
  cbn [enqueue_loop_from].
  destruct (lookup_lt_is_Some_2 cmd_sequence i ltac:(lia)) as [p Hp].
  rewrite Hp, (drop_S _ _ _ Hp), IH by lia.
  cbn [take List.filter].
  destruct (is_MSG_M702 p), mmu_enabled; reflexivity.
Qed.

Lemma enqueue_loop_from_past_table mmu_enabled cmd_sequence n :
  ∀ i, i ≤ length cmd_sequence → length cmd_sequence < i + n →
    enqueue_loop_from mmu_enabled cmd_sequence i n = None.
Proof.
  induction n as [| n IH]; intros i Hi Hlen; [lia |].
  cbn [enqueue_loop_from].
  destruct (cmd_sequence !! i) as [p |] eqn:Hp; [| reflexivity].
  apply lookup_lt_Some in Hp.
  rewrite IH by lia. now destruct (is_MSG_M702 p && negb mmu_enabled).
Qed.

(** [lay1cal_common_enqueue_loop] enqueues the first [steps] entries of its
    table in table order, leaving out MSG_M702 when the MMU is not enabled,
    and nothing else; this needs [steps] to be at most the size of the table,
    beyond which the loop reads past it. *)
Theorem lay1cal_common_enqueue_loop_filters mmu_enabled cmd_sequence steps :
  (steps ≤ length cmd_sequence →
   lay1cal_common_enqueue_loop mmu_enabled cmd_sequence steps
   = Some (enquecommand_P
             <$> List.filter (λ p, negb (is_MSG_M702 p) || mmu_enabled)
                   (take steps cmd_sequence))) ∧
  (length cmd_sequence < steps →
   lay1cal_common_enqueue_loop mmu_enabled cmd_sequence steps = None).
Proof.
  unfold lay1cal_common_enqueue_loop. split; intros H.
  - now rewrite enqueue_loop_from_in_table.
  - apply enqueue_loop_from_past_table; lia.
Qed.

Lemma lay1cal_common_enqueue_loop_filters_witness :
  lay1cal_common_enqueue_loop false
    [MSG_G90; MSG_M702; Text "M104S0"; MSG_M84] 3
  = Some [enquecommand_P MSG_G90; enquecommand_P (Text "M104S0")] ∧
  lay1cal_common_enqueue_loop true [MSG_G90; MSG_M702] 3 = None.
Proof.
  split.
  - apply (proj1 (lay1cal_common_enqueue_loop_filters false
                    [MSG_G90; MSG_M702; Text "M104S0"; MSG_M84] 3)).
    cbn. lia.
  - apply (proj2 (lay1cal_common_enqueue_loop_filters true
                    [MSG_G90; MSG_M702] 3)).
    cbn. lia.
Defined.

(** The three table-driven sequences stay inside their tables.
    [lay1cal_wait_preheat] and [lay1cal_before_meander] enqueue their whole
    table whether or not the MMU is enabled; [lay1cal_finish] enqueues its
    whole table with the MMU and everything but MSG_M702 without it. *)
Theorem lay1cal_tables_enqueued NEW_FIRST_LAYER_CAL mmu_enabled :
  lay1cal_wait_preheat mmu_enabled = Some (enquecommand_P <$> preheat_cmd) ∧
  lay1cal_before_meander NEW_FIRST_LAYER_CAL mmu_enabled
  = Some (enquecommand_P <$> cmd_pre_meander NEW_FIRST_LAYER_CAL) ∧
  lay1cal_finish mmu_enabled
  = Some (enquecommand_P
            <$> (if mmu_enabled then cmd_cal_finish
                 else List.filter (λ p, negb (is_MSG_M702 p)) cmd_cal_finish)).
Proof.
  unfold lay1cal_wait_preheat, lay1cal_before_meander, lay1cal_finish,
    lay1cal_common_enqueue_loop.
  rewrite !enqueue_loop_from_in_table by (cbn [Nat.add]; lia).
  rewrite !drop_0, !firstn_all.
  destruct mmu_enabled, NEW_FIRST_LAYER_CAL; repeat split; reflexivity.
Qed.

(** [lay1cal_load_filament] returns true exactly when the MMU is enabled and
    the wanted filament is not the current tool, and then its last command is
    the tool change to that filament.  MSG_M702 (unload) is enqueued exactly
    when it returns true and a tool is known to be loaded, and then it comes
    directly before the tool change.  With the MMU disabled nothing is
    enqueued. *)
Theorem lay1cal_load_filament_tool_change
    mmu_enabled current_tool FILAMENT_UNKNOWN filament :
  let ret := fst (lay1cal_load_filament mmu_enabled current_tool
                    FILAMENT_UNKNOWN filament) in
  let calls := snd (lay1cal_load_filament mmu_enabled current_tool
                      FILAMENT_UNKNOWN filament) in
  let tool_change := enquecommandf_P (Text "T%d") filament in
  (ret = true ↔ mmu_enabled = true ∧ current_tool ≠ filament) ∧
  (ret = true ↔ last calls = Some tool_change) ∧
  (enquecommand_P MSG_M702 ∈ calls ↔
   ret = true ∧ current_tool ≠ FILAMENT_UNKNOWN) ∧
  (enquecommand_P MSG_M702 ∈ calls →
   ∃ before, calls = before ++ [enquecommand_P MSG_M702; tool_change] ∧
             enquecommand_P MSG_M702 ∉ before) ∧
  (mmu_enabled = false → calls = []).
Proof.
  unfold lay1cal_load_filament.
  destruct mmu_enabled; cbv zeta;
    [destruct (Z.eqb_spec current_tool filament) as [Heq | Hne];
     [| destruct (Z.eqb_spec current_tool FILAMENT_UNKNOWN) as [Hu | Hk]] |];
    cbn [fst snd negb app last];
    rewrite ?elem_of_cons, ?elem_of_nil.
  - (* the wanted filament is loaded *)
    split; [split; [discriminate | tauto] |].
    split; [split; discriminate |].
    split; [split; [intros [H | [H | [H | []]]]; discriminate
                   | intros [H _]; discriminate] |].
    split; [intros [H | [H | [H | []]]]; discriminate | discriminate].
  - (* no tool is known to be loaded *)
    split; [tauto |]. split; [tauto |].
    split; [split; [intros [H | [H | [H | [H | []]]]]; discriminate
                   | intros [_ H]; contradiction] |].
    split; [intros [H | [H | [H | [H | []]]]]; discriminate | discriminate].
  - (* another tool is loaded *)
    split; [tauto |]. split; [tauto |].
    split; [tauto |].
    split; [| discriminate].
    intros _.
    exists [enquecommand_P MSG_M83; enquecommand_P (Text "G1Y-3F1000");
            enquecommand_P (Text "G1Z0.4")].
    split; [reflexivity |].
    rewrite !not_elem_of_cons. repeat split; try discriminate.
    apply not_elem_of_nil.
  - (* no MMU *)
    split; [split; [discriminate | intros [H _]; discriminate] |].
    split; [split; discriminate |].
    split; [split; [intros [] | intros [H _]; discriminate] |].
    split; [intros [] | reflexivity].
Qed.

Lemma lay1cal_load_filament_tool_change_witness :
  enquecommand_P MSG_M702
    ∈ snd (lay1cal_load_filament true 1 255 3) ∧
  ∃ before,
    snd (lay1cal_load_filament true 1 255 3)
    = before ++ [enquecommand_P MSG_M702; enquecommandf_P (Text "T%d") 3] ∧
    enquecommand_P MSG_M702 ∉ before.
Proof.
  destruct (lay1cal_load_filament_tool_change true 1 255 3)
    as (_ & _ & Hin & Hbefore & _).
  assert (H : enquecommand_P MSG_M702 ∈ snd (lay1cal_load_filament true 1 255 3)).
  { apply Hin. split; [reflexivity | lia]. }
  split; [exact H | exact (Hbefore H)].
Defined.

End FirstLayCalFacts.
